(** * Classical ciphers and the brute-force hacker of [Encryption/encryption.py]

    A shallow embedding of the classes [Cipher], [Caesar], [Multiplication],
    [Affine], [Unbreakable] and [Hacker], followed by the properties the
    specification states about them.

    Conventions.
    - A Python [int] is a [Z]; [%] with the non-zero class constant
      [alphabet_size] is [Z.modulo] (both take the sign of the divisor),
      [%] with a divisor that may be zero is [py_mod].
    - A Python [str] is the list of its code points, so that [ord] is the
      identity on an element and [chr] is partial ([ValueError] outside
      [0 .. 0x10FFFF]).
    - A raised exception is the [Raise] constructor of [result].
    - [random.randint] reads a tape of raw draws.
    - The [RSA] class is not embedded: its block codec
      ([blocks_from_text], [text_from_blocks]) is not part of the sources. *)

From Stdlib Require Import ZArith List Lia Bool String Ascii Znumtheory.
Import ListNotations.
Local Open Scope Z_scope.

(** ** Exceptions and the error monad *)

Inductive exn : Type :=
| ValueError
| ZeroDivisionError
| IndexError
| TypeError
| NoInverseError.

Inductive result (A : Type) : Type :=
| Ok (a : A)
| Raise (e : exn).

Arguments Ok {A} a.
Arguments Raise {A} e.

Definition bind {A B : Type} (m : result A) (f : A -> result B) : result B :=
  match m with
  | Ok a => f a
  | Raise e => Raise e
  end.

Notation "x <- m ;; k" := (bind m (fun x => k))
  (at level 61, m at next level, right associativity).

(** ** Python primitives *)

Definition str : Type := list Z.

Definition chr (n : Z) : result Z :=
  if (0 <=? n) && (n <=? 1114111) then Ok n else Raise ValueError.

Definition ord (c : Z) : Z := c.

(** [a % b] for a divisor that may be zero. *)
Definition py_mod (a b : Z) : result Z :=
  if b =? 0 then Raise ZeroDivisionError else Ok (a mod b).

Definition len {A : Type} (l : list A) : Z := Z.of_nat (List.length l).

(** [l[i]], with Python's negative indices. *)
Definition getitem (l : list Z) (i : Z) : result Z :=
  let j := if i <? 0 then i + len l else i in
  if j <? 0 then Raise IndexError
  else match nth_error l (Z.to_nat j) with
       | Some v => Ok v
       | None => Raise IndexError
       end.

Definition str_eqb (a b : str) : bool :=
  if list_eq_dec Z.eq_dec a b then true else false.

(** A string literal as a Python [str]. *)
Definition of_string (s : string) : str :=
  map (fun a => Z.of_N (N_of_ascii a)) (list_ascii_of_string s).

(** [range(lo, lo + n)] *)
Definition range (lo : Z) (n : nat) : list Z :=
  map (fun i => lo + Z.of_nat i) (seq 0 n).

(** ** The random source

    [random.randint(a, b)] returns an integer [N] with [a <= N <= b]:
    the raw draw under the cursor is reduced into that interval. *)

Record Random : Type := { tape : nat -> Z; cursor : nat }.

Definition randint (a b : Z) (r : Random) : Z * Random :=
  (a + tape r (cursor r) mod (b - a + 1),
   {| tape := tape r; cursor := S (cursor r) |}).

(** ** crypto_utils *)

(** Modelled from the spec: [crypto_utils.extended_gcd] is imported by
    [encryption.py] but its file is not among the sources.  The spec asks for
    [(g, x, y)] with [gcd(a,b) = g = a*x + b*y] on non-negative integers,
    [g = a] when [b = 0] and [g = b] when [a = 0], with trivial
    coefficients.  This is Euclid's algorithm; [b] bounds the number of
    steps. *)
Fixpoint extended_gcd_fuel (fuel : nat) (a b : Z) : Z * Z * Z :=
  match fuel with
  | O => (a, 1, 0)
  | S fuel' =>
      if b =? 0 then (a, 1, 0)
      else
        let '(g, x, y) := extended_gcd_fuel fuel' b (a mod b) in
        (g, y, x - (a / b) * y)
  end.

Definition extended_gcd (a b : Z) : Z * Z * Z :=
  extended_gcd_fuel (S (Z.to_nat b)) a b.

(** Modelled from the spec: [crypto_utils.modular_inverse], not among the
    sources.  The spec: [x] with [a*x = 1 (mod m)], computed via the
    extended GCD, normalised into [[0, m)]; fails with [NoInverseError]
    when [gcd(a, m) <> 1]. *)
Definition modular_inverse (a m : Z) : result Z :=
  let '(g, x, _) := extended_gcd a m in
  if negb (g =? 1) then Raise NoInverseError
  else Ok (x mod m).

(** ** class Cipher: the class constants *)

Definition alphabet_size : Z := 95.
Definition alphabet_start : Z := 32.
Definition alphabet_end : Z := 126.

(** ** class Caesar *)

Module Caesar.

Definition generate_key (r : Random) : Z * Random :=
  randint 0 alphabet_size r.

(** The [for char in msg] loop; [encoded_msg] is the string built so far. *)
Fixpoint encode_loop (key : Z) (msg : str) (encoded_msg : str) : result str :=
  match msg with
  | [] => Ok encoded_msg
  | char :: rest =>
      c <- chr ((ord char + key - alphabet_start) mod alphabet_size
                + alphabet_start) ;;
      encode_loop key rest (encoded_msg ++ [c])
  end.

Definition encode (key : Z) (msg : str) : result str :=
  encode_loop key msg [].

Definition decode (key : Z) (msg : str) : result str :=
  let decoding_key := alphabet_size - key in
  encode decoding_key msg.

End Caesar.

(** ** class Multiplication *)

Module Multiplication.

(** The [while] loop of [generate_key]; [None] when [fuel] draws were all
    rejected. *)
Fixpoint generate_key_loop (fuel : nat) (key : Z) (r : Random)
  : option (Z * Random) :=
  if negb (fst (fst (extended_gcd key alphabet_size)) =? 1) then
    match fuel with
    | O => None
    | S fuel' =>
        let '(key', r') := randint 0 alphabet_size r in
        generate_key_loop fuel' key' r'
    end
  else Some (key, r).

Definition generate_key (fuel : nat) (r : Random) : option (Z * Random) :=
  let '(key, r') := randint 0 alphabet_size r in
  generate_key_loop fuel key r'.

Fixpoint encode_loop (key : Z) (msg : str) (encoded_msg : str) : result str :=
  match msg with
  | [] => Ok encoded_msg
  | char :: rest =>
      c <- chr ((ord char * key - alphabet_start) mod alphabet_size
                + alphabet_start) ;;
      encode_loop key rest (encoded_msg ++ [c])
  end.

Definition encode (key : Z) (msg : str) : result str :=
  encode_loop key msg [].

Definition decode (key : Z) (msg : str) : result str :=
  mod_inverse <- modular_inverse key alphabet_size ;;
  encode mod_inverse msg.

End Multiplication.

(** ** class Affine *)

Module Affine.

Definition generate_key (fuel : nat) (r : Random)
  : option ((Z * Z) * Random) :=
  match Multiplication.generate_key fuel r with
  | None => None
  | Some (m, r') =>
      let '(c, r'') := Caesar.generate_key r' in
      Some ((m, c), r'')
  end.

Definition encode (key : Z * Z) (msg : str) : result str :=
  m <- Multiplication.encode (fst key) msg ;;
  Caesar.encode (snd key) m.

Definition decode (key : Z * Z) (msg : str) : result str :=
  c <- Caesar.decode (snd key) msg ;;
  Multiplication.decode (fst key) c.

End Affine.

(** ** class Unbreakable *)

Module Unbreakable.

(** [generate_key] reads the keyword from the console; the keyword is the
    argument here. *)
Definition generate_key (keyword : str) : list Z :=
  fold_left (fun key char => key ++ [ord char]) keyword [].

(** The [for i, char in enumerate(msg)] loop. *)
Fixpoint encode_loop (key : list Z) (i : Z) (msg : str) (encoded_msg : str)
  : result str :=
  match msg with
  | [] => Ok encoded_msg
  | char :: rest =>
      j <- py_mod i (len key) ;;
      k <- getitem key j ;;
      c <- chr ((ord char + k - alphabet_start) mod alphabet_size
                + alphabet_start) ;;
      encode_loop key (i + 1) rest (encoded_msg ++ [c])
  end.

Definition encode (key : list Z) (msg : str) : result str :=
  encode_loop key 0 msg [].

Definition decode (key : list Z) (msg : str) : result str :=
  let decoding_key :=
    fold_left
      (fun acc val => acc ++ [(alphabet_size - val) mod alphabet_size])
      key [] in
  encode decoding_key msg.

End Unbreakable.

(** ** The cipher objects

    The classical subclasses of [Cipher], the type of key each one takes,
    and the dispatch of the methods on the class of the object. *)

Module Cipher.

Inductive t : Type := Caesar | Multiplication | Affine | Unbreakable.

Definition key_of (c : t) : Type :=
  match c with
  | Caesar => Z
  | Multiplication => Z
  | Affine => (Z * Z)%type
  | Unbreakable => list Z
  end.

Definition encode (c : t) : key_of c -> str -> result str :=
  match c with
  | Caesar => Caesar.encode
  | Multiplication => Multiplication.encode
  | Affine => Affine.encode
  | Unbreakable => Unbreakable.encode
  end.

Definition decode (c : t) : key_of c -> str -> result str :=
  match c with
  | Caesar => Caesar.decode
  | Multiplication => Multiplication.decode
  | Affine => Affine.decode
  | Unbreakable => Unbreakable.decode
  end.

(** [Cipher.verify], inherited by the four classes. *)
Definition verify (c : t) (key : key_of c) (msg : str) : result bool :=
  encoded <- encode c key msg ;;
  decoded <- decode c key encoded ;;
  Ok (str_eqb msg decoded).

End Cipher.

(** ** class Hacker *)

(** [re.sub("[^0-9a-zA-Z]+", " ", s)]: every maximal run of characters
    outside the class becomes one space; [in_run] tells that the previous
    character was already part of such a run. *)
Definition is_alnum (c : Z) : bool :=
  ((48 <=? c) && (c <=? 57)) || ((97 <=? c) && (c <=? 122))
  || ((65 <=? c) && (c <=? 90)).

Fixpoint re_sub_non_alnum (s : str) (in_run : bool) : str :=
  match s with
  | [] => []
  | c :: rest =>
      if is_alnum c then c :: re_sub_non_alnum rest false
      else if in_run then re_sub_non_alnum rest true
      else 32 :: re_sub_non_alnum rest true
  end.

(** The characters [str.split()] separates on. *)
Definition is_space (c : Z) : bool :=
  ((9 <=? c) && (c <=? 13)) || ((28 <=? c) && (c <=? 32))
  || (c =? 133) || (c =? 160) || (c =? 5760)
  || ((8192 <=? c) && (c <=? 8202)) || (c =? 8232) || (c =? 8233)
  || (c =? 8239) || (c =? 8287) || (c =? 12288).

(** [s.split()]; [word] is the token being read. *)
Fixpoint split_loop (s : str) (word : str) : list str :=
  match s with
  | [] => match word with [] => [] | _ => [word] end
  | c :: rest =>
      if is_space c then
        match word with
        | [] => split_loop rest []
        | _ => word :: split_loop rest []
        end
      else split_loop rest (word ++ [c])
  end.

Definition split (s : str) : list str := split_loop s [].

(** [word.lower()] on the letters a token can hold after the substitution
    above (ASCII letters and digits). *)
Definition lower (word : str) : str :=
  map (fun c => if (65 <=? c) && (c <=? 90) then c + 32 else c) word.

Module Hacker.

(** The attributes of a [Hacker]; [words] lists the set read from
    [english_words.txt] in its iteration order. *)
Record t (c : Cipher.t) : Type := mk {
  key : option (Cipher.key_of c);
  encoded_msg : str;
  most_likely_msg : str;
  max_count : Z;
  words : list str
}.

Arguments mk {c}.
Arguments key {c}.
Arguments encoded_msg {c}.
Arguments most_likely_msg {c}.
Arguments max_count {c}.
Arguments words {c}.

Section Methods.

Context {c : Cipher.t}.

(** [__init__], the word list being handed over instead of read. *)
Definition init (encoded : str) (ws : list str) : t c :=
  mk None encoded [] 0 ws.

Definition set_key (self : t c) (k : Cipher.key_of c) : t c :=
  mk (Some k) (encoded_msg self) (most_likely_msg self)
     (max_count self) (words self).

(** [Receiver.operate_cipher] *)
Definition operate_cipher (self : t c) (msg : str) : result str :=
  match key self with
  | Some k => Cipher.decode c k msg
  | None => Raise TypeError
  end.

Definition count_loop (ws : list str) (tokens : list str) (count : Z) : Z :=
  fold_left
    (fun count word =>
       if existsb (str_eqb (lower word)) ws then count + 1 else count)
    tokens count.

Definition count_english_words (self : t c) (decoded_msg : str) : Z :=
  let decoded_msg := re_sub_non_alnum decoded_msg false in
  let decoded_msg_list := split decoded_msg in
  count_loop (words self) decoded_msg_list 0.

(** [check_key]: the object after the call, and whether it raised. *)
Definition check_key (self : t c) (k : Cipher.key_of c)
  : t c * result unit :=
  let self := set_key self k in
  match operate_cipher self (encoded_msg self) with
  | Raise e => (self, Raise e)
  | Ok decoded_msg =>
      let count := count_english_words self decoded_msg in
      if count >? max_count self then
        (mk (key self) (encoded_msg self) decoded_msg count (words self),
         Ok tt)
      else (self, Ok tt)
  end.

(** A [for] loop over [xs] whose body may raise. *)
Fixpoint for_each {A : Type} (body : t c -> A -> t c * result unit)
  (xs : list A) (self : t c) : t c * result unit :=
  match xs with
  | [] => (self, Ok tt)
  | x :: rest =>
      match body self x with
      | (self', Ok _) => for_each body rest self'
      | (self', Raise e) => (self', Raise e)
      end
  end.

End Methods.

(** The first branch of [brute_force], shared by [Caesar] and
    [Multiplication]. *)
Definition brute_force_int {c : Cipher.t} (of_int : Z -> Cipher.key_of c)
  (is_multiplication : bool) (self : t c) : t c * result unit :=
  for_each
    (fun self key =>
       if is_multiplication
          && negb (fst (fst (extended_gcd key alphabet_size)) =? 1)
       then (self, Ok tt)
       else check_key self (of_int key))
    (range 0 (Z.to_nat alphabet_size)) self.

Definition brute_force_affine (self : t Cipher.Affine)
  : t Cipher.Affine * result unit :=
  for_each
    (fun (self : t Cipher.Affine) c_key =>
       for_each
         (fun (self : t Cipher.Affine) m_key =>
            if negb (fst (fst (extended_gcd m_key alphabet_size)) =? 1)
            then (self, Ok tt)
            else check_key (c := Cipher.Affine) self (m_key, c_key))
         (range 0 (Z.to_nat alphabet_size)) self)
    (range 0 (Z.to_nat alphabet_size)) self.

Definition brute_force_unbreakable (self : t Cipher.Unbreakable)
  : t Cipher.Unbreakable * result unit :=
  for_each
    (fun (self : t Cipher.Unbreakable) word =>
       let encryption_key :=
         fold_left (fun k char => k ++ [ord char]) word [] in
       match check_key (c := Cipher.Unbreakable) self encryption_key with
       | (self', Raise ZeroDivisionError) => (self', Ok tt)
       | other => other
       end)
    (words self) self.

(** The [return self.most_likely_msg, self.max_count] after a loop. *)
Definition finish {c : Cipher.t} (out : t c * result unit)
  : t c * result (str * Z) :=
  match out with
  | (self, Ok _) => (self, Ok (most_likely_msg self, max_count self))
  | (self, Raise e) => (self, Raise e)
  end.

(** [brute_force]: the object after the call and the returned pair. *)
Definition brute_force {c : Cipher.t} : t c -> t c * result (str * Z) :=
  match c with
  | Cipher.Caesar =>
      fun self =>
        finish (brute_force_int (c := Cipher.Caesar) (fun k => k) false self)
  | Cipher.Multiplication =>
      fun self =>
        finish
          (brute_force_int (c := Cipher.Multiplication) (fun k => k) true self)
  | Cipher.Affine => fun self => finish (brute_force_affine self)
  | Cipher.Unbreakable => fun self => finish (brute_force_unbreakable self)
  end.

End Hacker.

(** ** What the specification says, where it differs from the code *)

(** The multiplicative map as the specification words it: the alphabet index
    [ordinal - 32] is multiplied by the key modulo 95. *)
Definition spec_multiplication_ord (key c : Z) : Z :=
  ((c - 32) * key) mod 95 + 32.

(** ** Predicates used by the statements *)

Definition in_alphabet (c : Z) : Prop := alphabet_start <= c <= alphabet_end.

(** The character maps computed by the bodies of the three encoding loops. *)
Definition caesar_ord (key c : Z) : Z :=
  (c + key - alphabet_start) mod alphabet_size + alphabet_start.

Definition multiplication_ord (key c : Z) : Z :=
  (c * key - alphabet_start) mod alphabet_size + alphabet_start.

Definition unbreakable_ord (key : list Z) (i c : Z) : Z :=
  (c + nth (Z.to_nat (i mod len key)) key 0 - alphabet_start)
    mod alphabet_size + alphabet_start.

(** [f] applied to each character together with its position, from [i]. *)
Fixpoint map_from (f : Z -> Z -> Z) (i : Z) (msg : str) : str :=
  match msg with
  | [] => []
  | c :: rest => f i c :: map_from f (i + 1) rest
  end.

(** The keys the specification calls valid, per class. *)
Definition valid_key (c : Cipher.t) : Cipher.key_of c -> Prop :=
  match c with
  | Cipher.Caesar => fun key => 0 <= key < alphabet_size
  | Cipher.Multiplication =>
      fun key => 0 <= key /\ Z.gcd key alphabet_size = 1
  | Cipher.Affine =>
      fun key =>
        (0 <= fst key /\ Z.gcd (fst key) alphabet_size = 1)
        /\ 0 <= snd key < alphabet_size
  | Cipher.Unbreakable => fun key => key <> []
  end.

(** The exception a call ends with, if any. *)
Definition error_of {A : Type} (r : result A) : option exn :=
  match r with
  | Ok _ => None
  | Raise e => Some e
  end.

(** The multiplicative factor of a key is within the domain on which the
    specification defines [extended_gcd]. *)
Definition factor_nonneg (c : Cipher.t) : Cipher.key_of c -> Prop :=
  match c with
  | Cipher.Multiplication => fun key => 0 <= key
  | Cipher.Affine => fun key => 0 <= fst key
  | _ => fun _ => True
  end.

(** The only inputs on which [encode] and [decode] end with an exception. *)
Definition raised_by_encode (c : Cipher.t)
  : Cipher.key_of c -> str -> option exn :=
  match c with
  | Cipher.Unbreakable =>
      fun key msg =>
        match key, msg with
        | [], _ :: _ => Some ZeroDivisionError
        | _, _ => None
        end
  | _ => fun _ _ => None
  end.

Definition raised_by_decode (c : Cipher.t)
  : Cipher.key_of c -> str -> option exn :=
  match c with
  | Cipher.Caesar => fun _ _ => None
  | Cipher.Multiplication =>
      fun key _ =>
        if Z.gcd key alphabet_size =? 1 then None else Some NoInverseError
  | Cipher.Affine =>
      fun key _ =>
        if Z.gcd (fst key) alphabet_size =? 1 then None
        else Some NoInverseError
  | Cipher.Unbreakable =>
      fun key msg =>
        match key, msg with
        | [], _ :: _ => Some ZeroDivisionError
        | _, _ => None
        end
  end.

Definition raised_by_verify (c : Cipher.t) (key : Cipher.key_of c)
  (msg : str) : option exn :=
  match raised_by_encode c key msg with
  | Some e => Some e
  | None => raised_by_decode c key msg
  end.

(** The value [randint(0, alphabet_size)] returns at the [n]-th call from
    the state [r] on. *)
Definition advance (n : nat) (r : Random) : Random :=
  {| tape := tape r; cursor := n + cursor r |}.

Definition nth_draw (r : Random) (n : nat) : Z :=
  fst (randint 0 alphabet_size (advance n r)).

(** The keys [brute_force] hands to [check_key], per class of cipher;
    [ws] is the word set of the hacker. *)
Definition candidate (c : Cipher.t) (ws : list str)
  : Cipher.key_of c -> Prop :=
  match c with
  | Cipher.Caesar => fun key => 0 <= key < alphabet_size
  | Cipher.Multiplication =>
      fun key => 0 <= key < alphabet_size /\ Z.gcd key alphabet_size = 1
  | Cipher.Affine =>
      fun key =>
        (0 <= fst key < alphabet_size /\ Z.gcd (fst key) alphabet_size = 1)
        /\ 0 <= snd key < alphabet_size
  | Cipher.Unbreakable => fun key => In key ws
  end.

(** After the keys [ks] were checked from the object [h] on, the object [h']
    retains the first of the best: either no key of [ks] scored above the
    count [h] held, and count and message are those of [h]; or the message
    is the decoding under a key of [ks] whose score is the retained count,
    every key before it scored strictly less and no key after it scored
    more. *)
Definition retains_first_best {c : Cipher.t} (h : Hacker.t c)
  (ks : list (Cipher.key_of c)) (h' : Hacker.t c) : Prop :=
  let score := Hacker.count_english_words h in
  let decoded k := Cipher.decode c k (Hacker.encoded_msg h) in
  (Hacker.max_count h' = Hacker.max_count h
   /\ Hacker.most_likely_msg h' = Hacker.most_likely_msg h
   /\ forall k d, In k ks -> decoded k = Ok d -> score d <= Hacker.max_count h)
  \/ (exists pre k post d,
         ks = pre ++ k :: post
         /\ decoded k = Ok d
         /\ Hacker.most_likely_msg h' = d
         /\ Hacker.max_count h' = score d
         /\ Hacker.max_count h < score d
         /\ (forall k' d', In k' pre -> decoded k' = Ok d' ->
                          score d' < score d)
         /\ (forall k' d', In k' post -> decoded k' = Ok d' ->
                          score d' <= score d)).

(** The object still holds what [__init__] stored. *)
Definition untouched {c : Cipher.t} (encoded : str) (ws : list str)
  (h : Hacker.t c) : Prop :=
  Hacker.most_likely_msg h = []
  /\ Hacker.max_count h = 0
  /\ Hacker.encoded_msg h = encoded
  /\ Hacker.words h = ws.

(** The keys [decode] can work with: any shift, a non-negative factor
    coprime with the alphabet size, a non-empty keyword. *)
Definition decodable_key (c : Cipher.t) : Cipher.key_of c -> Prop :=
  match c with
  | Cipher.Caesar => fun _ => True
  | Cipher.Multiplication =>
      fun key => 0 <= key /\ Z.gcd key alphabet_size = 1
  | Cipher.Affine =>
      fun key => 0 <= fst key /\ Z.gcd (fst key) alphabet_size = 1
  | Cipher.Unbreakable => fun key => key <> []
  end.

(** ** class Person, Sender, Receiver

    The attribute [cipher] is the index [c]; [key] is [None] until
    [set_key] is called. *)

Module Person.

Record t (c : Cipher.t) : Type := mk { key : option (Cipher.key_of c) }.

Arguments mk {c}.
Arguments key {c}.

Definition init {c : Cipher.t} : t c := mk None.

Definition set_key {c : Cipher.t} (self : t c) (k : Cipher.key_of c) : t c :=
  mk (Some k).

Definition get_key {c : Cipher.t} (self : t c) : option (Cipher.key_of c) :=
  key self.

End Person.

Module Sender.

(** [encode(None, msg)]: the loops of [Caesar], [Multiplication] and
    [Unbreakable] touch the key at the first character only; [Affine]
    subscripts it at once. *)
Definition encode_without_key (c : Cipher.t) (msg : str) : result str :=
  match c, msg with
  | Cipher.Affine, _ => Raise TypeError
  | _, [] => Ok []
  | _, _ :: _ => Raise TypeError
  end.

Definition operate_cipher {c : Cipher.t} (self : Person.t c) (msg : str)
  : result str :=
  match Person.key self with
  | Some k => Cipher.encode c k msg
  | None => encode_without_key c msg
  end.

End Sender.

Module Receiver.

Definition operate_cipher {c : Cipher.t} (self : Person.t c) (msg : str)
  : result str :=
  match Person.key self with
  | Some k => Cipher.decode c k msg
  | None => Raise TypeError
  end.

End Receiver.

(** The keys [brute_force] checks, in the order of its loops. *)
Definition coprime_keys : list Z :=
  filter (fun key => Z.gcd key alphabet_size =? 1)
    (range 0 (Z.to_nat alphabet_size)).

Definition candidate_keys (c : Cipher.t) (ws : list str)
  : list (Cipher.key_of c) :=
  match c with
  | Cipher.Caesar => range 0 (Z.to_nat alphabet_size)
  | Cipher.Multiplication => coprime_keys
  | Cipher.Affine =>
      flat_map (fun c_key => map (fun m_key => (m_key, c_key)) coprime_keys)
        (range 0 (Z.to_nat alphabet_size))
  | Cipher.Unbreakable => ws
  end.

(** The last element of a list, if any. *)
Definition last_of {A : Type} (l : list A) : option A :=
  match rev l with
  | [] => None
  | x :: _ => Some x
  end.

(** ** Keys of any shape

    The methods take whatever key the caller passes.  [pykey] lists the
    keys the statements about ill-shaped keys range over: [None], an
    integer, a tuple of integers, a list of integers.  [Untyped] gives the
    methods on them, from the operations the source applies to the key:
    [ord(char) + key] and [ord(char) * key - 32] (a [TypeError] unless the
    key is an integer, at the first character), [95 - key], [key[0]] and
    [key[1]], [len(key)], [for val in key]. *)

Inductive pykey : Type :=
| KNone
| KInt (k : Z)
| KTuple (ks : list Z)
| KList (ks : list Z).

Module Untyped.

(** [key[i]] *)
Definition subscript (key : pykey) (i : Z) : result Z :=
  match key with
  | KNone | KInt _ => Raise TypeError
  | KTuple ks | KList ks => getitem ks i
  end.

(** A loop whose body raises [TypeError] at the first character. *)
Definition loop_type_error (msg : str) : result str :=
  match msg with
  | [] => Ok []
  | _ :: _ => Raise TypeError
  end.

Definition caesar_encode (key : pykey) (msg : str) : result str :=
  match key with
  | KInt k => Caesar.encode k msg
  | _ => loop_type_error msg
  end.

Definition caesar_decode (key : pykey) (msg : str) : result str :=
  match key with
  | KInt k => Caesar.decode k msg
  | _ => Raise TypeError
  end.

Definition multiplication_encode (key : pykey) (msg : str) : result str :=
  match key with
  | KInt k => Multiplication.encode k msg
  | _ => loop_type_error msg
  end.

(** [modular_inverse_of_other key] stands for what
    [crypto_utils.modular_inverse(key, 95)] does with a key that is not an
    integer; [crypto_utils] is not among the sources and the
    specification describes it on integers only. *)
Definition multiplication_decode (modular_inverse_of_other : pykey -> result Z)
  (key : pykey) (msg : str) : result str :=
  match key with
  | KInt k => Multiplication.decode k msg
  | _ =>
      mod_inverse <- modular_inverse_of_other key ;;
      Multiplication.encode mod_inverse msg
  end.

Definition affine_encode (key : pykey) (msg : str) : result str :=
  k1 <- subscript key 1 ;;
  k0 <- subscript key 0 ;;
  m <- Multiplication.encode k0 msg ;;
  Caesar.encode k1 m.

Definition affine_decode (key : pykey) (msg : str) : result str :=
  k0 <- subscript key 0 ;;
  k1 <- subscript key 1 ;;
  c <- Caesar.decode k1 msg ;;
  Multiplication.decode k0 c.

Definition unbreakable_encode (key : pykey) (msg : str) : result str :=
  match key with
  | KTuple ks | KList ks => Unbreakable.encode ks msg
  | _ => loop_type_error msg
  end.

Definition unbreakable_decode (key : pykey) (msg : str) : result str :=
  match key with
  | KTuple ks | KList ks => Unbreakable.decode ks msg
  | _ => Raise TypeError
  end.

Definition encode (c : Cipher.t) : pykey -> str -> result str :=
  match c with
  | Cipher.Caesar => caesar_encode
  | Cipher.Multiplication => multiplication_encode
  | Cipher.Affine => affine_encode
  | Cipher.Unbreakable => unbreakable_encode
  end.

Definition decode (modular_inverse_of_other : pykey -> result Z)
  (c : Cipher.t) : pykey -> str -> result str :=
  match c with
  | Cipher.Caesar => caesar_decode
  | Cipher.Multiplication => multiplication_decode modular_inverse_of_other
  | Cipher.Affine => affine_decode
  | Cipher.Unbreakable => unbreakable_decode
  end.

(** A key of the shape the class expects, as a key of any shape. *)
Definition of_key (c : Cipher.t) : Cipher.key_of c -> pykey :=
  match c with
  | Cipher.Caesar => KInt
  | Cipher.Multiplication => KInt
  | Cipher.Affine => fun key => KTuple [fst key; snd key]
  | Cipher.Unbreakable => KList
  end.

End Untyped.

(** The multiplicative factor of a key of any shape, where there is one, is
    within the domain on which the specification defines [extended_gcd]. *)
Definition factor_nonneg_any (c : Cipher.t) (key : pykey) : Prop :=
  match c, key with
  | Cipher.Multiplication, KInt k => 0 <= k
  | Cipher.Affine, (KTuple (m :: _) | KList (m :: _)) => 0 <= m
  | _, _ => True
  end.

(** The exception [encode] ends with, for a key of any shape. *)
Definition raised_by_encode_any (c : Cipher.t) (key : pykey) (msg : str)
  : option exn :=
  match c with
  | Cipher.Caesar | Cipher.Multiplication =>
      match key, msg with
      | KInt _, _ => None
      | _, [] => None
      | _, _ :: _ => Some TypeError
      end
  | Cipher.Affine =>
      match key with
      | KNone | KInt _ => Some TypeError
      | KTuple ks | KList ks =>
          match ks with
          | [] | [_] => Some IndexError
          | _ :: _ :: _ => None
          end
      end
  | Cipher.Unbreakable =>
      match key, msg with
      | _, [] => None
      | (KNone | KInt _), _ :: _ => Some TypeError
      | (KTuple [] | KList []), _ :: _ => Some ZeroDivisionError
      | (KTuple (_ :: _) | KList (_ :: _)), _ :: _ => None
      end
  end.

(** The exception [decode] ends with, for a key of any shape. *)
Definition raised_by_decode_any (modular_inverse_of_other : pykey -> result Z)
  (c : Cipher.t) (key : pykey) (msg : str) : option exn :=
  match c with
  | Cipher.Caesar =>
      match key with
      | KInt _ => None
      | _ => Some TypeError
      end
  | Cipher.Multiplication =>
      match key with
      | KInt k =>
          if Z.gcd k alphabet_size =? 1 then None else Some NoInverseError
      | _ => error_of (modular_inverse_of_other key)
      end
  | Cipher.Affine =>
      match key with
      | KNone | KInt _ => Some TypeError
      | KTuple ks | KList ks =>
          match ks with
          | [] | [_] => Some IndexError
          | m :: _ :: _ =>
              if Z.gcd m alphabet_size =? 1 then None
              else Some NoInverseError
          end
      end
  | Cipher.Unbreakable =>
      match key with
      | KNone | KInt _ => Some TypeError
      | KTuple ks | KList ks =>
          match ks, msg with
          | [], _ :: _ => Some ZeroDivisionError
          | _, _ => None
          end
      end
  end.

(** * Properties *)

(** ** The character maps *)

Lemma mod_alphabet_range (x : Z) : in_alphabet (x mod alphabet_size + alphabet_start).
Proof.
  unfold in_alphabet, alphabet_size, alphabet_start, alphabet_end.
  pose proof (Z.mod_pos_bound x 95 ltac:(lia)). lia.
Qed.

Lemma chr_in_alphabet (n : Z) : in_alphabet n -> chr n = Ok n.
Proof.
  unfold in_alphabet, alphabet_start, alphabet_end, chr. intros H.
  destruct (Z.leb_spec 0 n); destruct (Z.leb_spec n 1114111); simpl; auto; lia.
Qed.

Lemma chr_mod (x : Z) :
  chr (x mod alphabet_size + alphabet_start) = Ok (x mod alphabet_size + alphabet_start).
Proof. apply chr_in_alphabet, mod_alphabet_range. Qed.

Lemma caesar_encode_loop (key : Z) (msg acc : str) :
  Caesar.encode_loop key msg acc = Ok (acc ++ map (caesar_ord key) msg).
Proof.
  revert acc. induction msg as [|c rest IH]; intros acc; simpl.
  - now rewrite app_nil_r.
  - unfold ord. rewrite chr_mod. simpl. rewrite IH, <- app_assoc. reflexivity.
Qed.

Lemma caesar_encode_map (key : Z) (msg : str) :
  Caesar.encode key msg = Ok (map (caesar_ord key) msg).
Proof. unfold Caesar.encode. now rewrite caesar_encode_loop. Qed.

Lemma multiplication_encode_loop (key : Z) (msg acc : str) :
  Multiplication.encode_loop key msg acc
  = Ok (acc ++ map (multiplication_ord key) msg).
Proof.
  revert acc. induction msg as [|c rest IH]; intros acc; simpl.
  - now rewrite app_nil_r.
  - unfold ord. rewrite chr_mod. simpl. rewrite IH, <- app_assoc. reflexivity.
Qed.

Lemma multiplication_encode_map (key : Z) (msg : str) :
  Multiplication.encode key msg = Ok (map (multiplication_ord key) msg).
Proof. unfold Multiplication.encode. now rewrite multiplication_encode_loop. Qed.

Lemma fold_left_snoc {A B : Type} (f : A -> B) (l : list A) (acc : list B) :
  fold_left (fun acc x => acc ++ [f x]) l acc = acc ++ map f l.
Proof.
  revert acc. induction l as [|x l IH]; intros acc; simpl.
  - now rewrite app_nil_r.
  - rewrite IH, <- app_assoc. reflexivity.
Qed.

Lemma len_pos {A : Type} (l : list A) : l <> [] -> 0 < len l.
Proof. destruct l; [congruence|]. unfold len. simpl. lia. Qed.

Lemma getitem_mod (key : list Z) (i : Z) :
  key <> [] ->
  getitem key (i mod len key) = Ok (nth (Z.to_nat (i mod len key)) key 0).
Proof.
  intros Hk. pose proof (len_pos key Hk) as Hl.
  pose proof (Z.mod_pos_bound i (len key) Hl) as Hb.
  unfold getitem.
  destruct (Z.ltb_spec (i mod len key) 0); [lia|].
  destruct (Z.ltb_spec (i mod len key) 0); [lia|].
  destruct (nth_error key (Z.to_nat (i mod len key))) eqn:E.
  - f_equal. symmetry. now apply nth_error_nth.
  - apply nth_error_None in E. unfold len in *. lia.
Qed.

Lemma unbreakable_encode_loop (key : list Z) (i : Z) (msg acc : str) :
  key <> [] ->
  Unbreakable.encode_loop key i msg acc
  = Ok (acc ++ map_from (unbreakable_ord key) i msg).
Proof.
  intros Hk. revert i acc. induction msg as [|c rest IH]; intros i acc; simpl.
  - now rewrite app_nil_r.
  - unfold py_mod. pose proof (len_pos key Hk).
    destruct (Z.eqb_spec (len key) 0); [lia|]. simpl.
    rewrite getitem_mod by assumption. simpl.
    unfold ord. rewrite chr_mod. simpl.
    rewrite IH, <- app_assoc. reflexivity.
Qed.

Lemma unbreakable_encode_map (key : list Z) (msg : str) :
  key <> [] ->
  Unbreakable.encode key msg = Ok (map_from (unbreakable_ord key) 0 msg).
Proof. intros Hk. unfold Unbreakable.encode. now rewrite unbreakable_encode_loop. Qed.

Lemma map_from_length (f : Z -> Z -> Z) (i : Z) (msg : str) :
  List.length (map_from f i msg) = List.length msg.
Proof. revert i. induction msg; intros i; simpl; auto. Qed.

Lemma map_from_Forall (f : Z -> Z -> Z) (P : Z -> Prop) (i : Z) (msg : str) :
  (forall j c, P (f j c)) -> Forall P (map_from f i msg).
Proof.
  intros H. revert i. induction msg; intros i; simpl; constructor; auto.
Qed.

(** ** The extended GCD and the modular inverse *)

Lemma extended_gcd_fuel_spec (fuel : nat) :
  forall a b, 0 <= b -> (Z.to_nat b < fuel)%nat -> 0 <= a \/ 0 < b ->
    let '(g, x, y) := extended_gcd_fuel fuel a b in
    g = a * x + b * y /\ g = Z.gcd a b.
Proof.
  induction fuel as [|fuel IH]; intros a b Hb Hf Ha; [lia|].
  simpl. destruct (Z.eqb_spec b 0) as [->|Hnz].
  - split; [lia|]. rewrite Z.gcd_0_r. lia.
  - pose proof (Z.mod_pos_bound a b ltac:(lia)) as Hm.
    specialize (IH b (a mod b) ltac:(lia) ltac:(lia) ltac:(lia)).
    destruct (extended_gcd_fuel fuel b (a mod b)) as [[g x] y].
    destruct IH as [Hbez Hg]. split.
    + rewrite Hbez. rewrite (Z.mod_eq a b) by assumption. ring.
    + rewrite Hg, Z.gcd_comm, Z.gcd_mod by assumption. apply Z.gcd_comm.
Qed.

Lemma extended_gcd_spec (a b : Z) :
  0 <= a -> 0 <= b ->
  let '(g, x, y) := extended_gcd a b in
  g = a * x + b * y /\ g = Z.gcd a b.
Proof.
  intros Ha Hb. unfold extended_gcd.
  apply extended_gcd_fuel_spec; [lia | lia | now left].
Qed.

Lemma extended_gcd_fst (a b : Z) :
  0 <= a -> 0 <= b -> fst (fst (extended_gcd a b)) = Z.gcd a b.
Proof.
  intros Ha Hb. pose proof (extended_gcd_spec a b Ha Hb) as H.
  destruct (extended_gcd a b) as [[g x] y]. simpl. tauto.
Qed.

Lemma modular_inverse_ok (a m : Z) :
  0 <= a -> 0 < m -> Z.gcd a m = 1 ->
  exists x, modular_inverse a m = Ok x /\ 0 <= x < m /\ (a * x) mod m = 1 mod m.
Proof.
  intros Ha Hm Hg. unfold modular_inverse.
  pose proof (extended_gcd_spec a m Ha ltac:(lia)) as H.
  destruct (extended_gcd a m) as [[g x] y]. destruct H as [Hbez Hgcd].
  assert (g = 1) as -> by congruence. simpl.
  exists (x mod m). split; [reflexivity|]. split.
  - apply Z.mod_pos_bound; lia.
  - rewrite Z.mul_mod_idemp_r by lia.
    replace (a * x) with (1 + (- y) * m) by lia.
    now rewrite Z.mod_add by lia.
Qed.

Lemma modular_inverse_raises (a m : Z) :
  0 <= a -> 0 <= m -> Z.gcd a m <> 1 ->
  modular_inverse a m = Raise NoInverseError.
Proof.
  intros Ha Hm Hg. unfold modular_inverse.
  pose proof (extended_gcd_spec a m Ha Hm) as H.
  destruct (extended_gcd a m) as [[g x] y]. destruct H as [_ Hgcd].
  destruct (Z.eqb_spec g 1); [congruence|reflexivity].
Qed.

(** ** Concrete runs *)

Example caesar_abc : Caesar.encode 3 (of_string "abc") = Ok (of_string "def").
Proof. reflexivity. Qed.

Example hacker_demo :
  snd (Hacker.brute_force
         (Hacker.init (c := Cipher.Caesar) (of_string "khoor#zruog")
            [of_string "hello"; of_string "world"]))
  = Ok (of_string "hello world", 2).
Proof. vm_compute. reflexivity. Qed.

Example hacker_demo_m :
  snd (Hacker.brute_force
         (Hacker.init (c := Cipher.Multiplication) (of_string "khoor zruog")
            [of_string "hello"; of_string "world"]))
  = Ok ([], 0).
Proof. vm_compute. reflexivity. Qed.

Example hacker_demo_u :
  snd (Hacker.brute_force
         (Hacker.init (c := Cipher.Unbreakable) (of_string "khoor zruog")
            [of_string "hello"; of_string "world"; []; of_string "###"]))
  = Ok (of_string "HELLO\WORLD", 2).
Proof. vm_compute. reflexivity. Qed.

(** ** Shift by three *)

(** C9: the Shift cipher with key 3 encodes "abc" (ordinals 97, 98, 99) to
    "def" (ordinals 100, 101, 102), and decoding "def" with key 3 gives
    "abc" back. *)
Theorem caesar_key3_abc_def :
  of_string "abc" = [97; 98; 99]
  /\ of_string "def" = [100; 101; 102]
  /\ Caesar.encode 3 (of_string "abc") = Ok (of_string "def")
  /\ Caesar.decode 3 (of_string "def") = Ok (of_string "abc").
Proof. repeat split; reflexivity. Qed.

(** ** The range of the encoders *)

(** C10: for the Shift, Multiplicative and Keyword ciphers, [encode] returns
    a string of the length of its input whose characters all lie in
    [32 .. 126], for any integer key (any non-empty key list for the
    Keyword cipher) and any input string, whatever its characters. *)
Theorem encode_stays_in_alphabet (key : Z) (keyword : list Z) (msg : str) :
  keyword <> [] ->
  (exists out, Caesar.encode key msg = Ok out
               /\ Forall in_alphabet out
               /\ List.length out = List.length msg)
  /\ (exists out, Multiplication.encode key msg = Ok out
                  /\ Forall in_alphabet out
                  /\ List.length out = List.length msg)
  /\ (exists out, Unbreakable.encode keyword msg = Ok out
                  /\ Forall in_alphabet out
                  /\ List.length out = List.length msg).
Proof.
  intros Hk. repeat split.
  - exists (map (caesar_ord key) msg). rewrite caesar_encode_map.
    repeat split; [|apply length_map].
    apply Forall_map, Forall_forall. intros c _. apply mod_alphabet_range.
  - exists (map (multiplication_ord key) msg). rewrite multiplication_encode_map.
    repeat split; [|apply length_map].
    apply Forall_map, Forall_forall. intros c _. apply mod_alphabet_range.
  - exists (map_from (unbreakable_ord keyword) 0 msg).
    rewrite unbreakable_encode_map by assumption.
    repeat split; [|apply map_from_length].
    apply map_from_Forall. intros j c. apply mod_alphabet_range.
Qed.

Lemma encode_stays_in_alphabet_witness :
  (exists out, Caesar.encode 100 [7; 200; 65] = Ok out
               /\ Forall in_alphabet out
               /\ List.length out = List.length [7; 200; 65])
  /\ (exists out, Multiplication.encode 100 [7; 200; 65] = Ok out
                  /\ Forall in_alphabet out
                  /\ List.length out = List.length [7; 200; 65])
  /\ (exists out, Unbreakable.encode [-4; 1000] [7; 200; 65] = Ok out
                  /\ Forall in_alphabet out
                  /\ List.length out = List.length [7; 200; 65]).
Proof.
  apply (encode_stays_in_alphabet 100 [-4; 1000] [7; 200; 65]).
  discriminate.
Defined.

(** ** The multiplicative map *)

(** C1, as the specification states it, fails: with key 2 the letter "a"
    (ordinal 97, index 65) is encoded to ordinal 99, while
    [(65 * 2) mod 95 + 32] is 67. *)
Lemma multiplication_encode_not_index_product :
  in_alphabet 97
  /\ Multiplication.encode 2 [97] = Ok [99]
  /\ spec_multiplication_ord 2 97 = 67
  /\ Multiplication.encode 2 [97] <> Ok [spec_multiplication_ord 2 97].
Proof.
  repeat split; try reflexivity.
  - unfold in_alphabet, alphabet_start; lia.
  - unfold in_alphabet, alphabet_end; lia.
  - discriminate.
Qed.

(** C1, amended: the multiplicative [encode] multiplies the ordinal itself,
    not the alphabet index.  For every key and every message whose
    characters [c] all have [32 <= c <= 126], the encoded message holds, at
    the place of each [c], the character of ordinal
    [(c * key - 32) mod 95 + 32]: it is the character of [32 .. 126]
    congruent to [c * key] modulo 95, and its alphabet index is
    [((index + 32) * key - 32) mod 95]. *)
Theorem multiplication_encode_ordinal (key : Z) (msg : str) :
  Forall in_alphabet msg ->
  Multiplication.encode key msg
  = Ok (map (fun c => (c * key - 32) mod 95 + 32) msg)
  /\ Forall (fun c =>
               let e := (c * key - 32) mod 95 + 32 in
               in_alphabet e
               /\ e mod 95 = (c * key) mod 95
               /\ e - 32 = (((c - 32) + 32) * key - 32) mod 95) msg.
Proof.
  intros _. split.
  - rewrite multiplication_encode_map. reflexivity.
  - apply Forall_forall. intros c _. cbv zeta. split; [|split].
    + apply (mod_alphabet_range (c * key - 32)).
    + rewrite Zplus_mod_idemp_l. f_equal. lia.
    + replace (c - 32 + 32) with c by lia. lia.
Qed.

Lemma multiplication_encode_ordinal_witness :
  Multiplication.encode 2 (of_string "abc")
  = Ok (map (fun c => (c * 2 - 32) mod 95 + 32) (of_string "abc"))
  /\ Forall (fun c =>
               let e := (c * 2 - 32) mod 95 + 32 in
               in_alphabet e
               /\ e mod 95 = (c * 2) mod 95
               /\ e - 32 = (((c - 32) + 32) * 2 - 32) mod 95)
       (of_string "abc").
Proof.
  apply (multiplication_encode_ordinal 2 (of_string "abc")).
  unfold in_alphabet, alphabet_start, alphabet_end.
  repeat (constructor; [simpl; lia|]). constructor.
Defined.

(** ** Decoding undoes encoding *)

Lemma caesar_ord_undo (key key' c : Z) :
  in_alphabet c ->
  (key + key') mod alphabet_size = 0 ->
  caesar_ord key' (caesar_ord key c) = c.
Proof.
  unfold in_alphabet, caesar_ord, alphabet_size, alphabet_start, alphabet_end.
  intros Hc Hk.
  replace ((c + key - 32) mod 95 + 32 + key' - 32)
    with ((c + key - 32) mod 95 + key') by lia.
  rewrite Zplus_mod_idemp_l.
  replace (c + key - 32 + key') with ((c - 32) + (key + key')) by lia.
  rewrite Zplus_mod, Hk, Z.add_0_r, Z.mod_mod by lia.
  rewrite Z.mod_small by lia. lia.
Qed.

Lemma multiplication_ord_undo (key inv c : Z) :
  in_alphabet c ->
  (key * inv) mod alphabet_size = 1 mod alphabet_size ->
  multiplication_ord inv (multiplication_ord key c) = c.
Proof.
  unfold in_alphabet, multiplication_ord, alphabet_size, alphabet_start,
    alphabet_end.
  intros Hc Hk. change (1 mod 95) with 1 in Hk.
  pose proof (Z.div_mod (key * inv) 95 ltac:(lia)) as Hq. rewrite Hk in Hq.
  pose proof (Z.div_mod (c * key - 32) 95 ltac:(lia)) as Hq1.
  set (q := key * inv / 95) in *. set (q1 := (c * key - 32) / 95) in *.
  set (e := (c * key - 32) mod 95) in *.
  assert ((e + 32) * inv - 32 = (c - 32) + (c * q - q1 * inv) * 95) as ->.
  { replace (e + 32) with (c * key - 95 * q1) by lia.
    replace ((c * key - 95 * q1) * inv) with (c * (key * inv) - 95 * q1 * inv)
      by ring.
    rewrite Hq. ring. }
  rewrite Z.mod_add by lia. rewrite Z.mod_small by lia. lia.
Qed.

Lemma map_undo (f g : Z -> Z) (msg : str) :
  Forall in_alphabet msg ->
  (forall c, in_alphabet c -> g (f c) = c) ->
  map g (map f msg) = msg.
Proof.
  intros Hm H. induction Hm as [|c rest Hc _ IH]; simpl; [reflexivity|].
  now rewrite H, IH.
Qed.

Lemma map_from_undo (f g : Z -> Z -> Z) (i : Z) (msg : str) :
  Forall in_alphabet msg ->
  (forall j c, in_alphabet c -> g j (f j c) = c) ->
  map_from g i (map_from f i msg) = msg.
Proof.
  intros Hm H. revert i.
  induction Hm as [|c rest Hc _ IH]; intros i; simpl; [reflexivity|].
  now rewrite H, IH.
Qed.

Lemma nth_map_zero (f : Z -> Z) (l : list Z) (n : nat) :
  f 0 = 0 -> nth n (map f l) 0 = f (nth n l 0).
Proof. intros H. rewrite <- (map_nth f l 0 n). now rewrite H. Qed.

Lemma unbreakable_ord_undo (key : list Z) (i c : Z) :
  key <> [] ->
  in_alphabet c ->
  unbreakable_ord (map (fun val => (alphabet_size - val) mod alphabet_size) key)
    i (unbreakable_ord key i c) = c.
Proof.
  intros Hk Hc. unfold unbreakable_ord.
  assert (len (map (fun val => (alphabet_size - val) mod alphabet_size) key)
          = len key) as -> by (unfold len; now rewrite length_map).
  rewrite nth_map_zero by reflexivity.
  set (k := nth (Z.to_nat (i mod len key)) key 0).
  unfold in_alphabet, alphabet_size, alphabet_start, alphabet_end in *.
  replace ((c + k - 32) mod 95 + 32 + (95 - k) mod 95 - 32)
    with ((c + k - 32) mod 95 + (95 - k) mod 95) by lia.
  rewrite <- Zplus_mod.
  replace (c + k - 32 + (95 - k)) with ((c - 32) + 1 * 95) by lia.
  rewrite Z.mod_add by lia. rewrite Z.mod_small by lia. lia.
Qed.

Lemma caesar_roundtrip (key : Z) (msg : str) :
  Forall in_alphabet msg ->
  Caesar.decode key (map (caesar_ord key) msg) = Ok msg.
Proof.
  intros Hm. unfold Caesar.decode. rewrite caesar_encode_map. apply f_equal.
  apply map_undo; [assumption|]. intros ch Hch.
  apply caesar_ord_undo; [assumption|].
  replace (key + (alphabet_size - key)) with alphabet_size by lia.
  reflexivity.
Qed.

Lemma multiplication_roundtrip (key : Z) (msg : str) :
  0 <= key -> Z.gcd key alphabet_size = 1 ->
  Forall in_alphabet msg ->
  Multiplication.decode key (map (multiplication_ord key) msg) = Ok msg.
Proof.
  intros Hk0 Hg Hm. unfold Multiplication.decode.
  destruct (modular_inverse_ok key alphabet_size Hk0 ltac:(reflexivity) Hg)
    as (inv & -> & _ & Hinv).
  cbn [bind]. rewrite multiplication_encode_map. apply f_equal.
  apply map_undo; [assumption|]. intros ch Hch.
  now apply multiplication_ord_undo.
Qed.

Lemma unbreakable_roundtrip (key : list Z) (msg : str) :
  key <> [] ->
  Forall in_alphabet msg ->
  Unbreakable.decode key (map_from (unbreakable_ord key) 0 msg) = Ok msg.
Proof.
  intros Hk Hm. unfold Unbreakable.decode. rewrite fold_left_snoc.
  cbn [app]. rewrite unbreakable_encode_map
    by (destruct key; [congruence|discriminate]).
  apply f_equal. apply map_from_undo; [assumption|]. intros j ch Hch.
  now apply unbreakable_ord_undo.
Qed.

(** C2: for each of the four classical ciphers, every valid key of that
    cipher (Shift: an integer in [0, 95); Multiplicative: coprime with 95;
    Affine: such a pair; Keyword: a non-empty integer sequence) and every
    plaintext whose characters all lie in [32 .. 126], [encode] returns a
    ciphertext that [decode] with the same key turns back into the
    plaintext. *)
Theorem decode_encode_roundtrip (c : Cipher.t) (key : Cipher.key_of c)
  (msg : str) :
  valid_key c key ->
  Forall in_alphabet msg ->
  exists encoded,
    Cipher.encode c key msg = Ok encoded
    /\ Cipher.decode c key encoded = Ok msg.
Proof.
  destruct c; cbn [Cipher.key_of Cipher.encode Cipher.decode valid_key] in *;
    intros Hk Hm.
  - exists (map (caesar_ord key) msg). split; [apply caesar_encode_map|].
    now apply caesar_roundtrip.
  - destruct Hk as [Hk0 Hg].
    exists (map (multiplication_ord key) msg).
    split; [apply multiplication_encode_map|].
    now apply multiplication_roundtrip.
  - destruct key as [m k]. cbn [fst snd] in Hk. destruct Hk as [[Hm0 Hg] Hk].
    exists (map (caesar_ord k) (map (multiplication_ord m) msg)). split.
    + unfold Affine.encode. cbn [fst snd].
      rewrite multiplication_encode_map. cbn [bind]. apply caesar_encode_map.
    + unfold Affine.decode. cbn [fst snd].
      rewrite caesar_roundtrip.
      * cbn [bind]. now apply multiplication_roundtrip.
      * apply Forall_map, Forall_forall. intros ch _.
        apply mod_alphabet_range.
  - exists (map_from (unbreakable_ord key) 0 msg).
    split; [now apply unbreakable_encode_map|].
    now apply unbreakable_roundtrip.
Qed.

Lemma decode_encode_roundtrip_witness :
  exists encoded,
    Cipher.encode Cipher.Affine (2, 3) (of_string "Hello, world!") = Ok encoded
    /\ Cipher.decode Cipher.Affine (2, 3) encoded
       = Ok (of_string "Hello, world!").
Proof.
  apply (decode_encode_roundtrip Cipher.Affine (2, 3)
           (of_string "Hello, world!")).
  - simpl. unfold alphabet_size. repeat split; try lia; reflexivity.
  - unfold in_alphabet, alphabet_start, alphabet_end.
    repeat (constructor; [simpl; lia|]). constructor.
Defined.

(** ** Which calls raise *)

Lemma multiplication_decode_error (key : Z) (msg : str) :
  0 <= key ->
  error_of (Multiplication.decode key msg)
  = if Z.gcd key alphabet_size =? 1 then None else Some NoInverseError.
Proof.
  intros Hk. unfold Multiplication.decode.
  destruct (Z.eqb_spec (Z.gcd key alphabet_size) 1) as [Hg|Hg].
  - destruct (modular_inverse_ok key alphabet_size Hk ltac:(reflexivity) Hg)
      as (inv & -> & _).
    cbn [bind]. now rewrite multiplication_encode_map.
  - rewrite modular_inverse_raises; [reflexivity|assumption| |assumption].
    unfold alphabet_size. lia.
Qed.

Lemma unbreakable_encode_error (key : list Z) (msg : str) :
  error_of (Unbreakable.encode key msg)
  = match key, msg with
    | [], _ :: _ => Some ZeroDivisionError
    | _, _ => None
    end.
Proof.
  destruct key as [|k key].
  - destruct msg; reflexivity.
  - rewrite unbreakable_encode_map by discriminate. reflexivity.
Qed.

Lemma encode_error_of (c : Cipher.t) (key : Cipher.key_of c) (msg : str) :
  error_of (Cipher.encode c key msg) = raised_by_encode c key msg.
Proof.
  destruct c; cbn [Cipher.encode raised_by_encode Cipher.key_of] in *.
  - now rewrite caesar_encode_map.
  - now rewrite multiplication_encode_map.
  - unfold Affine.encode. rewrite multiplication_encode_map. cbn [bind].
    now rewrite caesar_encode_map.
  - apply unbreakable_encode_error.
Qed.

Lemma decode_error_of (c : Cipher.t) (key : Cipher.key_of c) (msg : str) :
  factor_nonneg c key ->
  error_of (Cipher.decode c key msg) = raised_by_decode c key msg.
Proof.
  destruct c;
    cbn [Cipher.decode raised_by_decode factor_nonneg Cipher.key_of] in *;
    intros Hk.
  - unfold Caesar.decode. now rewrite caesar_encode_map.
  - now apply multiplication_decode_error.
  - unfold Affine.decode, Caesar.decode. rewrite caesar_encode_map.
    cbn [bind]. now apply multiplication_decode_error.
  - unfold Unbreakable.decode. rewrite fold_left_snoc. cbn [app].
    rewrite unbreakable_encode_error. destruct key; reflexivity.
Qed.

(** C5, as the specification states it, fails: the Shift [encode] accepts a
    character outside [32 .. 126], and the Multiplicative [encode] accepts a
    factor that is not coprime with 95; both return a string. *)
Lemma encode_accepts_bad_input :
  ~ in_alphabet 200
  /\ Cipher.encode Cipher.Caesar 3 [200] = Ok [108]
  /\ Z.gcd 5 alphabet_size <> 1
  /\ Cipher.encode Cipher.Multiplication 5 (of_string "a") = Ok (of_string "i").
Proof.
  split; [unfold in_alphabet, alphabet_end; lia|].
  split; [reflexivity|].
  split; [discriminate|reflexivity].
Qed.

(** On keys of the shape the class expects (an integer, a pair of integers,
    a list of integers), [encode] and [decode] raise in two cases only: the
    Multiplicative and Affine [decode] raise [NoInverseError] when the
    (non-negative) multiplicative factor is not coprime with 95, and the
    Keyword [encode] and [decode] raise [ZeroDivisionError] when the key is
    empty and the message is not.  The keys of another shape are the matter
    of [ciphers_raise_only_on_key_operations]. *)
Theorem ciphers_raise_only_without_inverse_or_key (c : Cipher.t)
  (key : Cipher.key_of c) (msg : str) :
  factor_nonneg c key ->
  error_of (Cipher.encode c key msg) = raised_by_encode c key msg
  /\ error_of (Cipher.decode c key msg) = raised_by_decode c key msg.
Proof.
  intros Hk. split; [apply encode_error_of | now apply decode_error_of].
Qed.

Lemma ciphers_raise_only_without_inverse_or_key_witness :
  error_of (Cipher.encode Cipher.Affine (10, 7) [5; 300; 97]) = None
  /\ error_of (Cipher.decode Cipher.Affine (10, 7) [5; 300; 97])
     = Some NoInverseError.
Proof.
  apply (ciphers_raise_only_without_inverse_or_key Cipher.Affine (10, 7)
           [5; 300; 97]).
  simpl. lia.
Defined.

(** ** verify *)

(** C6, as the specification states it, fails: with the factor 5, which is
    not coprime with 95, the Multiplicative [verify] raises
    [NoInverseError]; with an empty key the Keyword [verify] raises
    [ZeroDivisionError]. *)
Lemma verify_raises :
  Cipher.verify Cipher.Multiplication 5 (of_string "a") = Raise NoInverseError
  /\ Cipher.verify Cipher.Unbreakable [] (of_string "a")
     = Raise ZeroDivisionError.
Proof. split; reflexivity. Qed.

(** C6, amended: for the four classical ciphers [verify] returns the boolean
    that compares the message with the decoding of its encoding, for every
    message, whenever the key can be used to decode: any Shift key, a
    (non-negative) multiplicative factor coprime with 95, a non-empty
    Keyword key (or an empty message).  For the other keys it raises:
    [NoInverseError] for a factor that is not coprime with 95,
    [ZeroDivisionError] for an empty Keyword key and a non-empty message. *)
Theorem verify_returns_unless_key_unusable (c : Cipher.t)
  (key : Cipher.key_of c) (msg : str) :
  factor_nonneg c key ->
  match raised_by_verify c key msg with
  | Some e => Cipher.verify c key msg = Raise e
  | None =>
      exists encoded decoded,
        Cipher.encode c key msg = Ok encoded
        /\ Cipher.decode c key encoded = Ok decoded
        /\ Cipher.verify c key msg = Ok (str_eqb msg decoded)
  end.
Proof.
  intros Hk. unfold raised_by_verify, Cipher.verify.
  pose proof (encode_error_of c key msg) as He.
  destruct (Cipher.encode c key msg) as [encoded|e] eqn:Eenc;
    cbn [error_of] in He; rewrite <- He; [|reflexivity].
  cbn [bind].
  pose proof (decode_error_of c key encoded Hk) as Hd.
  assert (raised_by_decode c key msg = raised_by_decode c key encoded) as ->.
  { destruct c; try reflexivity.
    cbn [raised_by_decode raised_by_encode Cipher.key_of Cipher.encode] in *.
    destruct key as [|k key]; [|reflexivity].
    destruct msg as [|ch msg]; [|discriminate].
    unfold Unbreakable.encode in Eenc. cbn in Eenc.
    injection Eenc as <-. reflexivity. }
  destruct (Cipher.decode c key encoded) as [decoded|e] eqn:Edec;
    cbn [error_of] in Hd; rewrite <- Hd; [|reflexivity].
  exists encoded, decoded.
  split; [reflexivity|]. split; [exact Edec|reflexivity].
Qed.

Lemma verify_returns_unless_key_unusable_witness :
  exists encoded decoded,
    Cipher.encode Cipher.Multiplication 7 [10; 97; 500] = Ok encoded
    /\ Cipher.decode Cipher.Multiplication 7 encoded = Ok decoded
    /\ Cipher.verify Cipher.Multiplication 7 [10; 97; 500]
       = Ok (str_eqb [10; 97; 500] decoded).
Proof.
  apply (verify_returns_unless_key_unusable Cipher.Multiplication 7
           [10; 97; 500]).
  simpl. lia.
Defined.

(** ** Key generation *)

Lemma randint_range (a b : Z) (r : Random) :
  a <= b -> a <= fst (randint a b r) <= b.
Proof.
  intros H. unfold randint. cbn [fst].
  pose proof (Z.mod_pos_bound (tape r (cursor r)) (b - a + 1) ltac:(lia)).
  lia.
Qed.

(** C4: the Shift [generate_key] returns [randint(0, 95)], an integer of
    [0 .. 95] with both ends included; on a draw of 95 it returns 95, which is
    not below the alphabet size. *)
Theorem caesar_generate_key_reaches_alphabet_size :
  (forall r, 0 <= fst (Caesar.generate_key r) <= alphabet_size)
  /\ fst (Caesar.generate_key {| tape := fun _ => 95; cursor := 0 |})
     = alphabet_size
  /\ (fst (Caesar.generate_key {| tape := fun _ => 95; cursor := 0 |})
      <? alphabet_size) = false.
Proof.
  split; [|split].
  - intros r. apply randint_range. unfold alphabet_size. lia.
  - reflexivity.
  - reflexivity.
Qed.

Lemma coprime_key_range (key : Z) :
  0 <= key <= alphabet_size -> Z.gcd key alphabet_size = 1 ->
  0 < key < alphabet_size.
Proof.
  unfold alphabet_size. intros Hr Hg.
  assert (key <> 0) by (intros ->; discriminate).
  assert (key <> 95) by (intros ->; discriminate).
  lia.
Qed.

Lemma generate_key_loop_sound (fuel : nat) :
  forall key r k r',
    0 <= key <= alphabet_size ->
    Multiplication.generate_key_loop fuel key r = Some (k, r') ->
    Z.gcd k alphabet_size = 1 /\ 0 <= k <= alphabet_size.
Proof.
  induction fuel as [|fuel IH]; intros key r k r' Hr; cbn [Multiplication.generate_key_loop];
    rewrite extended_gcd_fst by (unfold alphabet_size in *; lia);
    destruct (Z.eqb_spec (Z.gcd key alphabet_size) 1) as [Hg|Hg];
    cbn [negb]; intros H; try discriminate;
    try (injection H as <- <-; now split).
  destruct (randint 0 alphabet_size r) as [key' r1] eqn:E.
  apply (IH key' r1 k r'); [|assumption].
  change key' with (fst (key', r1)). rewrite <- E.
  apply randint_range. unfold alphabet_size. lia.
Qed.

Lemma nth_draw_range (r : Random) (n : nat) :
  0 <= nth_draw r n <= alphabet_size.
Proof. apply randint_range. unfold alphabet_size. lia. Qed.

Lemma nth_draw_succ (r : Random) (n : nat) :
  nth_draw (snd (randint 0 alphabet_size r)) n = nth_draw r (S n).
Proof.
  unfold nth_draw, randint, advance. cbn [fst snd tape cursor].
  now rewrite Nat.add_succ_r.
Qed.

Lemma generate_key_loop_complete (n : nat) :
  forall key r,
    0 <= key <= alphabet_size ->
    Z.gcd (match n with O => key | S m => nth_draw r m end) alphabet_size = 1 ->
    exists k r', Multiplication.generate_key_loop n key r = Some (k, r').
Proof.
  induction n as [|n IH]; intros key r Hr Hn;
    cbn [Multiplication.generate_key_loop];
    rewrite extended_gcd_fst by (unfold alphabet_size in *; lia);
    destruct (Z.eqb_spec (Z.gcd key alphabet_size) 1) as [Hg|Hg];
    cbn [negb]; try (now exists key, r); try contradiction.
  pose proof (nth_draw_succ r) as Hs.
  pose proof (randint_range 0 alphabet_size r ltac:(unfold alphabet_size; lia))
    as Hr1.
  destruct (randint 0 alphabet_size r) as [key' r1] eqn:E.
  cbn [fst snd] in *.
  apply IH; [assumption|].
  destruct n as [|m]; [|now rewrite Hs].
  unfold nth_draw, advance in Hn. cbn [plus] in Hn.
  replace {| tape := tape r; cursor := cursor r |} with r in Hn
    by (now destruct r).
  now rewrite E in Hn.
Qed.

(** C8: the Multiplicative [generate_key] returns only keys coprime with 95:
    whatever the draws, a returned key has [gcd(key, 95) = 1] (and lies
    strictly between 0 and 95); and it does return, as soon as one of the
    draws is coprime with 95. *)
Theorem multiplication_generate_key_coprime :
  (forall fuel r key r',
      Multiplication.generate_key fuel r = Some (key, r') ->
      Z.gcd key alphabet_size = 1 /\ 0 < key < alphabet_size)
  /\ (forall n r,
         Z.gcd (nth_draw r n) alphabet_size = 1 ->
         exists key r',
           Multiplication.generate_key n r = Some (key, r')
           /\ Z.gcd key alphabet_size = 1).
Proof.
  split.
  - intros fuel r key r' H. unfold Multiplication.generate_key in H.
    pose proof (randint_range 0 alphabet_size r
                  ltac:(unfold alphabet_size; lia)) as Hr.
    destruct (randint 0 alphabet_size r) as [key0 r1]. cbn [fst] in Hr.
    destruct (generate_key_loop_sound fuel key0 r1 key r' Hr H) as [Hg Hk].
    split; [assumption|]. now apply coprime_key_range.
  - intros n r Hn. unfold Multiplication.generate_key.
    pose proof (randint_range 0 alphabet_size r
                  ltac:(unfold alphabet_size; lia)) as Hr.
    pose proof (nth_draw_succ r) as Hs.
    assert (nth_draw r 0 = fst (randint 0 alphabet_size r)) as H0.
    { unfold nth_draw, advance. cbn [plus]. now destruct r. }
    destruct (randint 0 alphabet_size r) as [key0 r1]. cbn [fst snd] in *.
    destruct (generate_key_loop_complete n key0 r1 Hr) as (k & r' & Hk).
    { destruct n as [|m]; [now rewrite <- H0 | now rewrite Hs]. }
    exists k, r'. split; [assumption|].
    now destruct (generate_key_loop_sound n key0 r1 k r' Hr Hk).
Qed.

Lemma multiplication_generate_key_coprime_witness :
  exists key r',
    Multiplication.generate_key 2
      {| tape := fun n => match n with O => 0 | S O => 95 | _ => 7 end;
         cursor := 0 |} = Some (key, r')
    /\ Z.gcd key alphabet_size = 1.
Proof.
  apply (proj2 multiplication_generate_key_coprime 2%nat
           {| tape := fun n => match n with O => 0 | S O => 95 | _ => 7 end;
              cursor := 0 |}).
  reflexivity.
Defined.

(** ** The tokens the hacker counts *)

Lemma re_sub_chars (s : str) (in_run : bool) :
  Forall (fun c => is_alnum c = true \/ is_space c = true)
    (re_sub_non_alnum s in_run).
Proof.
  revert in_run. induction s as [|c s IH]; intros in_run; simpl; [constructor|].
  destruct (is_alnum c) eqn:E.
  - constructor; [now left | apply IH].
  - destruct in_run; [apply IH|]. constructor; [now right | apply IH].
Qed.

Lemma split_loop_tokens (P : Z -> Prop) (s : str) :
  Forall (fun c => P c \/ is_space c = true) s ->
  forall word, Forall P word -> Forall (Forall P) (split_loop s word).
Proof.
  induction 1 as [|c s Hc _ IH]; intros word Hw; simpl.
  - destruct word; cbn; [constructor|].
    constructor; [assumption|constructor].
  - destruct (is_space c) eqn:E.
    + destruct word; [now apply IH|].
      constructor; [assumption | apply IH; constructor].
    + apply IH. apply Forall_app. split; [assumption|].
      constructor; [|constructor]. destruct Hc; [assumption|congruence].
Qed.

(** Every token [count_english_words] looks up is made of ASCII letters and
    digits only, the characters on which [lower] is [str.lower]. *)
Lemma tokens_alnum (decoded_msg : str) :
  Forall (Forall (fun c => is_alnum c = true))
    (split (re_sub_non_alnum decoded_msg false)).
Proof.
  unfold split. apply split_loop_tokens; [apply re_sub_chars | constructor].
Qed.

(** ** The hacker *)

Section HackerFacts.

Context {c : Cipher.t}.

Implicit Types (h : Hacker.t c) (k : Cipher.key_of c).

Lemma count_english_words_words h1 h2 (d : str) :
  Hacker.words h1 = Hacker.words h2 ->
  Hacker.count_english_words h1 d = Hacker.count_english_words h2 d.
Proof. unfold Hacker.count_english_words. now intros ->. Qed.

(** What one call of [check_key] does to the object. *)
Lemma check_key_cases h k :
  let h1 := fst (Hacker.check_key h k) in
  let r := snd (Hacker.check_key h k) in
  Hacker.encoded_msg h1 = Hacker.encoded_msg h
  /\ Hacker.words h1 = Hacker.words h
  /\ match Cipher.decode c k (Hacker.encoded_msg h) with
     | Raise e =>
         r = Raise e
         /\ Hacker.max_count h1 = Hacker.max_count h
         /\ Hacker.most_likely_msg h1 = Hacker.most_likely_msg h
     | Ok d =>
         r = Ok tt
         /\ if Hacker.count_english_words h d >? Hacker.max_count h
            then Hacker.max_count h1 = Hacker.count_english_words h d
                 /\ Hacker.most_likely_msg h1 = d
            else Hacker.max_count h1 = Hacker.max_count h
                 /\ Hacker.most_likely_msg h1 = Hacker.most_likely_msg h
     end.
Proof.
  unfold Hacker.check_key, Hacker.operate_cipher.
  cbn [Hacker.set_key Hacker.key Hacker.encoded_msg Hacker.max_count
       Hacker.words Hacker.most_likely_msg].
  destruct (Cipher.decode c k (Hacker.encoded_msg h)) as [d|e];
    [|cbn; auto].
  change (Hacker.count_english_words (Hacker.set_key h k) d)
    with (Hacker.count_english_words h d).
  destruct (Hacker.count_english_words h d >? Hacker.max_count h);
    cbn; auto.
Qed.

Lemma check_key_monotone h k :
  Hacker.max_count h <= Hacker.max_count (fst (Hacker.check_key h k)).
Proof.
  destruct (check_key_cases h k) as (_ & _ & H).
  destruct (Cipher.decode c k (Hacker.encoded_msg h)) as [d|e].
  - destruct H as [_ H].
    destruct (Z.gtb_spec (Hacker.count_english_words h d) (Hacker.max_count h));
      destruct H as [-> _]; lia.
  - destruct H as (_ & -> & _). lia.
Qed.

Lemma check_keys_monotone (ks : list (Cipher.key_of c)) :
  forall h,
    Hacker.max_count h
    <= Hacker.max_count (fst (Hacker.for_each Hacker.check_key ks h)).
Proof.
  induction ks as [|k ks IH]; intros h; cbn [Hacker.for_each fst]; [lia|].
  pose proof (check_key_monotone h k) as Hm.
  destruct (Hacker.check_key h k) as [h1 [[]|e]]; cbn [fst] in *.
  - specialize (IH h1). lia.
  - assumption.
Qed.

Lemma check_keys_first_best (ks : list (Cipher.key_of c)) :
  forall h,
    snd (Hacker.for_each Hacker.check_key ks h) = Ok tt ->
    retains_first_best h ks (fst (Hacker.for_each Hacker.check_key ks h)).
Proof.
  induction ks as [|k ks IH]; intros h; cbn [Hacker.for_each].
  - intros _. left. cbn [fst]. repeat split. intros k d [].
  - destruct (check_key_cases h k) as (Henc & Hws & H).
    destruct (Hacker.check_key h k) as [h1 r]. cbn [fst snd] in *.
    destruct (Cipher.decode c k (Hacker.encoded_msg h)) as [d|e] eqn:Ed.
    2:{ destruct H as (-> & _). cbn [snd]. discriminate. }
    destruct H as [-> H]. intros Hok. specialize (IH h1 Hok).
    set (h' := fst (Hacker.for_each Hacker.check_key ks h1)) in *.
    unfold retains_first_best in *.
    rewrite Henc in IH.
    assert (forall d', Hacker.count_english_words h1 d'
                       = Hacker.count_english_words h d') as Hc
        by (intros d'; now apply count_english_words_words).
    destruct (Z.gtb_spec (Hacker.count_english_words h d) (Hacker.max_count h))
      as [Hgt|Hle]; destruct H as [Hmax Hmsg].
    + right. destruct IH as [(Hm' & Hs' & Hall)|
                             (pre & k' & post & d' & -> & Hd' & Hs' & Hm' & Hlt & Hpre & Hpost)].
      * exists [], k, ks, d. cbn [app].
        repeat split; try assumption; try congruence.
        -- intros k' d' [].
        -- intros k' d' Hin Hd'. specialize (Hall k' d' Hin Hd').
           rewrite Hc in Hall. lia.
      * exists (k :: pre), k', post, d'. rewrite Hc in *.
        repeat split; try assumption; try lia.
        -- intros k'' d'' [<-|Hin] Hd''.
           ++ rewrite Ed in Hd''. injection Hd'' as <-. lia.
           ++ specialize (Hpre k'' d'' Hin Hd''). now rewrite !Hc in Hpre.
        -- intros k'' d'' Hin Hd''.
           specialize (Hpost k'' d'' Hin Hd''). now rewrite !Hc in Hpost.
    + destruct IH as [(Hm' & Hs' & Hall)|
                      (pre & k' & post & d' & -> & Hd' & Hs' & Hm' & Hlt & Hpre & Hpost)].
      * left. repeat split; try congruence.
        intros k' d' [<-|Hin] Hd'.
        -- rewrite Ed in Hd'. injection Hd' as <-. lia.
        -- specialize (Hall k' d' Hin Hd'). rewrite Hc in Hall. lia.
      * right. exists (k :: pre), k', post, d'. rewrite Hc in *.
        repeat split; try assumption; try lia.
        -- intros k'' d'' [<-|Hin] Hd''.
           ++ rewrite Ed in Hd''. injection Hd'' as <-. lia.
           ++ specialize (Hpre k'' d'' Hin Hd''). now rewrite !Hc in Hpre.
        -- intros k'' d'' Hin Hd''.
           specialize (Hpost k'' d'' Hin Hd''). now rewrite !Hc in Hpost.
Qed.

End HackerFacts.

(** C3: while the hacker checks candidate keys, the retained count
    [max_count] never decreases, and the candidate retained is the first, in
    the order of the search, among those that reach the best count: a later
    candidate replaces it only with a strictly greater count. *)
Theorem hacker_best_never_decreases_first_wins (c : Cipher.t)
  (h : Hacker.t c) (ks : list (Cipher.key_of c)) :
  let out := Hacker.for_each Hacker.check_key ks h in
  Hacker.max_count h <= Hacker.max_count (fst out)
  /\ (forall k, Hacker.max_count h
                <= Hacker.max_count (fst (Hacker.check_key h k)))
  /\ (snd out = Ok tt -> retains_first_best h ks (fst out)).
Proof.
  cbv zeta. split; [apply check_keys_monotone|].
  split; [apply check_key_monotone|apply check_keys_first_best].
Qed.

Lemma hacker_best_never_decreases_first_wins_witness :
  let h := Hacker.init (c := Cipher.Caesar) (of_string "khoor#zruog")
             [of_string "hello"; of_string "world"] in
  retains_first_best (c := Cipher.Caesar) h [1; 3; 98]
    (fst (Hacker.for_each (c := Cipher.Caesar) Hacker.check_key [1; 3; 98] h)).
Proof.
  intros h.
  apply (proj2 (proj2 (hacker_best_never_decreases_first_wins
                         Cipher.Caesar h [1; 3; 98]))).
  reflexivity.
Defined.

(** ** The keys of the exhaustive search *)

Lemma in_range (lo : Z) (n : nat) (x : Z) :
  In x (range lo n) -> lo <= x < lo + Z.of_nat n.
Proof.
  unfold range. rewrite in_map_iff. intros (i & <- & Hi).
  apply in_seq in Hi. lia.
Qed.

Lemma for_each_ext {c : Cipher.t} {A : Type}
  (body1 body2 : Hacker.t c -> A -> Hacker.t c * result unit) (xs : list A) :
  (forall h x, In x xs -> body1 h x = body2 h x) ->
  forall h, Hacker.for_each body1 xs h = Hacker.for_each body2 xs h.
Proof.
  induction xs as [|x xs IH]; intros Hext h; cbn [Hacker.for_each];
    [reflexivity|].
  rewrite (Hext h x (or_introl eq_refl)).
  destruct (body2 h x) as [h1 [[]|e]]; [|reflexivity].
  apply IH. intros h2 y Hy. apply Hext. now right.
Qed.

Lemma for_each_skip {c : Cipher.t} {A : Type} (skip : A -> bool)
  (body : Hacker.t c -> A -> Hacker.t c * result unit) (xs : list A) :
  forall h,
    Hacker.for_each (fun h x => if skip x then (h, Ok tt) else body h x) xs h
    = Hacker.for_each body (filter (fun x => negb (skip x)) xs) h.
Proof.
  induction xs as [|x xs IH]; intros h; cbn [Hacker.for_each filter];
    [reflexivity|].
  destruct (skip x); cbn [negb Hacker.for_each]; [apply IH|].
  destruct (body h x) as [h1 [[]|e]]; [apply IH|reflexivity].
Qed.

(** The first branch of [brute_force] checks the keys 0, 1, ..., 94 in
    ascending order, those coprime with 95 only for [Multiplication]. *)
Lemma brute_force_int_keys {c : Cipher.t} (of_int : Z -> Cipher.key_of c)
  (is_multiplication : bool) (h : Hacker.t c) :
  Hacker.brute_force_int of_int is_multiplication h
  = Hacker.for_each Hacker.check_key
      (map of_int
         (filter (fun key => negb is_multiplication
                             || (Z.gcd key alphabet_size =? 1))
            (range 0 (Z.to_nat alphabet_size)))) h.
Proof.
  unfold Hacker.brute_force_int.
  rewrite (for_each_ext _
             (fun h key =>
                if is_multiplication && negb (Z.gcd key alphabet_size =? 1)
                then (h, Ok tt) else Hacker.check_key h (of_int key))).
  - rewrite (for_each_skip
               (fun key => is_multiplication
                           && negb (Z.gcd key alphabet_size =? 1))
               (fun h key => Hacker.check_key h (of_int key))).
    erewrite filter_ext.
    2:{ intros key. rewrite negb_andb, negb_involutive. reflexivity. }
    generalize (filter (fun key => negb is_multiplication
                                   || (Z.gcd key alphabet_size =? 1))
                  (range 0 (Z.to_nat alphabet_size))).
    intros ks. revert h. induction ks as [|k ks IH]; intros h;
      cbn [map Hacker.for_each]; [reflexivity|].
    destruct (Hacker.check_key h (of_int k)) as [h1 [[]|e]];
      [apply IH|reflexivity].
  - intros h1 key Hin. apply in_range in Hin.
    rewrite <- extended_gcd_fst by (unfold alphabet_size in *; lia).
    reflexivity.
Qed.

(** ** brute_force without any match *)

Section NoMatch.

Context {c : Cipher.t} (encoded : str) (ws : list str).

Lemma for_each_untouched {A : Type}
  (body : Hacker.t c -> A -> Hacker.t c * result unit) (xs : list A) :
  (forall h x, In x xs -> untouched encoded ws h ->
               untouched encoded ws (fst (body h x)) /\ snd (body h x) = Ok tt) ->
  forall h, untouched encoded ws h ->
            untouched encoded ws (fst (Hacker.for_each body xs h))
            /\ snd (Hacker.for_each body xs h) = Ok tt.
Proof.
  induction xs as [|x xs IH]; intros Hbody h Hh; cbn [Hacker.for_each].
  - now split.
  - destruct (Hbody h x (or_introl eq_refl) Hh) as [H1 H2].
    destruct (body h x) as [h1 r]. cbn [fst snd] in *. subst r.
    apply IH; [|assumption].
    intros h2 y Hy. apply Hbody. now right.
Qed.

(** A key whose decoding holds no word leaves the object as it was; the
    call raises exactly when [decode] does. *)
Lemma check_key_untouched (h : Hacker.t c) (k : Cipher.key_of c) :
  (forall d, Cipher.decode c k encoded = Ok d ->
             Hacker.count_english_words (Hacker.init (c := c) encoded ws) d
             = 0) ->
  untouched encoded ws h ->
  untouched encoded ws (fst (Hacker.check_key h k))
  /\ error_of (snd (Hacker.check_key h k))
     = error_of (Cipher.decode c k encoded).
Proof.
  intros Hzero (Hmsg & Hmax & Henc & Hws).
  destruct (check_key_cases h k) as (Henc1 & Hws1 & H).
  rewrite Henc in H.
  destruct (Cipher.decode c k encoded) as [d|e].
  - destruct H as [Hr H]. rewrite Hr. split; [|reflexivity].
    assert (Hacker.count_english_words h d = 0) as Hc.
    { rewrite <- (Hzero d eq_refl).
      apply count_english_words_words. now rewrite Hws. }
    rewrite Hc, Hmax in H. cbn in H. destruct H as [H1 H2].
    unfold untouched. repeat split; congruence.
  - destruct H as (Hr & H1 & H2). rewrite Hr. split; [|reflexivity].
    unfold untouched. repeat split; congruence.
Qed.

End NoMatch.

Lemma result_unit_Ok (r : result unit) : error_of r = None -> r = Ok tt.
Proof. destruct r as [[]|e]; [reflexivity|discriminate]. Qed.

Lemma coprime_test (key : Z) :
  0 <= key ->
  negb (fst (fst (extended_gcd key alphabet_size)) =? 1)
  = negb (Z.gcd key alphabet_size =? 1).
Proof.
  intros H. rewrite extended_gcd_fst; [reflexivity|assumption|].
  unfold alphabet_size. lia.
Qed.

(** C7: when no candidate key decodes the message to a text that holds a
    word of the corpus (every candidate scores zero), [brute_force] returns
    the empty string as the most likely message, with the count 0. *)
Theorem brute_force_without_match (c : Cipher.t) (encoded : str)
  (ws : list str) :
  (forall k d, candidate c ws k ->
               Cipher.decode c k encoded = Ok d ->
               Hacker.count_english_words (Hacker.init (c := c) encoded ws) d
               = 0) ->
  snd (Hacker.brute_force (Hacker.init (c := c) encoded ws)) = Ok ([], 0).
Proof.
  intros Hzero.
  assert (untouched encoded ws (Hacker.init (c := c) encoded ws)) as Hinit
      by (repeat split).
  assert (forall out : Hacker.t c * result unit,
             untouched encoded ws (fst out) /\ snd out = Ok tt ->
             snd (Hacker.finish out) = Ok ([], 0)) as Hfin.
  { intros [h r] [(Hmsg & Hmax & _) Hr]. cbn [fst snd] in *. subst r.
    cbn. now rewrite Hmsg, Hmax. }
  destruct c; cbn [Hacker.brute_force]; apply Hfin;
    cbn [candidate Cipher.key_of] in *.
  - (* Caesar *)
    apply for_each_untouched; [|assumption].
    intros h key Hin Hh. apply in_range in Hin. cbn [andb].
    assert (0 <= key < alphabet_size) as Hkey by (unfold alphabet_size in Hin |- *; lia).
    destruct (check_key_untouched encoded ws h key
                (fun d => Hzero key d Hkey) Hh) as [H1 H2].
    split; [assumption|]. apply result_unit_Ok. rewrite H2.
    rewrite (decode_error_of Cipher.Caesar key encoded I). reflexivity.
  - (* Multiplication *)
    apply for_each_untouched; [|assumption].
    intros h key Hin Hh. apply in_range in Hin.
    assert (0 <= key < alphabet_size) as Hkey by (unfold alphabet_size in Hin |- *; lia).
    cbn [andb]. rewrite coprime_test by lia.
    destruct (Z.eqb_spec (Z.gcd key alphabet_size) 1) as [Hg|Hg];
      cbn [negb]; [|now split].
    destruct (check_key_untouched encoded ws h key
                (fun d => Hzero key d (conj Hkey Hg)) Hh) as [H1 H2].
    split; [assumption|]. apply result_unit_Ok. rewrite H2.
    rewrite (decode_error_of Cipher.Multiplication key encoded
               (proj1 Hkey)).
    cbn [raised_by_decode]. now rewrite Hg.
  - (* Affine *)
    apply for_each_untouched; [|assumption].
    intros h c_key Hc Hh. apply in_range in Hc.
    assert (0 <= c_key < alphabet_size) as Hck by (unfold alphabet_size in Hc |- *; lia).
    apply for_each_untouched; [|assumption].
    intros h1 m_key Hm Hh1. apply in_range in Hm.
    assert (0 <= m_key < alphabet_size) as Hmk by (unfold alphabet_size in Hm |- *; lia).
    rewrite coprime_test by lia.
    destruct (Z.eqb_spec (Z.gcd m_key alphabet_size) 1) as [Hg|Hg];
      cbn [negb]; [|now split].
    destruct (check_key_untouched (c := Cipher.Affine) encoded ws h1
                (m_key, c_key)
                (fun d => Hzero (m_key, c_key) d (conj (conj Hmk Hg) Hck)) Hh1)
      as [H1 H2].
    split; [assumption|]. apply result_unit_Ok. rewrite H2.
    rewrite (decode_error_of Cipher.Affine (m_key, c_key) encoded
               (proj1 Hmk)).
    cbn [raised_by_decode fst]. now rewrite Hg.
  - (* Unbreakable *)
    unfold Hacker.brute_force_unbreakable.
    replace (Hacker.words (Hacker.init (c := Cipher.Unbreakable) encoded ws))
      with ws by reflexivity.
    apply for_each_untouched; [|assumption].
    intros h word Hin Hh.
    assert (fold_left (fun k char => k ++ [ord char]) word [] = word) as ->.
    { rewrite fold_left_snoc. cbn [app]. apply map_id. }
    destruct (check_key_untouched (c := Cipher.Unbreakable) encoded ws h word
                (fun d => Hzero word d Hin) Hh) as [H1 H2].
    rewrite (decode_error_of Cipher.Unbreakable word encoded I) in H2.
    destruct (Hacker.check_key h word) as [h1 r]. cbn [fst snd] in *.
    destruct r as [[]|e]; [now split|].
    cbn [error_of raised_by_decode] in H2.
    destruct word as [|w word]; [|discriminate].
    destruct encoded as [|ch encoded]; [discriminate|].
    injection H2 as ->. now split.
Qed.

Lemma brute_force_without_match_witness :
  snd (Hacker.brute_force
         (Hacker.init (c := Cipher.Unbreakable) (of_string "!! !!")
            [of_string "a"; []; of_string "kb"]))
  = Ok ([], 0).
Proof.
  apply (brute_force_without_match Cipher.Unbreakable (of_string "!! !!")
           [of_string "a"; []; of_string "kb"]).
  intros k d Hk Hd. simpl in Hk.
  destruct Hk as [<-|[<-|[<-|[]]]];
    vm_compute in Hd; try discriminate;
    injection Hd as <-; vm_compute; reflexivity.
Defined.

(** * Further properties of the ciphers *)

(** ** Shifts and factors compose *)

Lemma caesar_ord_compose (k1 k2 c : Z) :
  caesar_ord k2 (caesar_ord k1 c) = caesar_ord (k1 + k2) c.
Proof.
  unfold caesar_ord, alphabet_size, alphabet_start.
  replace ((c + k1 - 32) mod 95 + 32 + k2 - 32)
    with ((c + k1 - 32) mod 95 + k2) by lia.
  rewrite Zplus_mod_idemp_l. do 2 f_equal. lia.
Qed.

Lemma multiplication_ord_compose (k1 k2 c : Z) :
  multiplication_ord k2 (multiplication_ord k1 c)
  = multiplication_ord (k1 * k2) c.
Proof.
  unfold multiplication_ord, alphabet_size, alphabet_start.
  pose proof (Z.div_mod (c * k1 - 32) 95 ltac:(lia)) as Hq.
  set (q := (c * k1 - 32) / 95) in *. set (e := (c * k1 - 32) mod 95) in *.
  replace ((e + 32) * k2 - 32) with (c * (k1 * k2) - 32 + (- q * k2) * 95).
  - now rewrite Z.mod_add by lia.
  - replace (e + 32) with (c * k1 - 95 * q) by lia. ring.
Qed.

(** Shifting by [k1] and then by [k2] is shifting by [k1 + k2], for every
    string and all integer keys. *)
Theorem caesar_encode_compose (k1 k2 : Z) (msg : str) :
  exists encoded,
    Caesar.encode k1 msg = Ok encoded
    /\ Caesar.encode k2 encoded = Caesar.encode (k1 + k2) msg.
Proof.
  exists (map (caesar_ord k1) msg). split; [apply caesar_encode_map|].
  rewrite !caesar_encode_map, map_map. apply f_equal.
  apply map_ext. intros c. apply caesar_ord_compose.
Qed.

(** Multiplying by [k1] and then by [k2] is multiplying by [k1 * k2], for
    every string and all integer keys. *)
Theorem multiplication_encode_compose (k1 k2 : Z) (msg : str) :
  exists encoded,
    Multiplication.encode k1 msg = Ok encoded
    /\ Multiplication.encode k2 encoded = Multiplication.encode (k1 * k2) msg.
Proof.
  exists (map (multiplication_ord k1) msg).
  split; [apply multiplication_encode_map|].
  rewrite !multiplication_encode_map, map_map. apply f_equal.
  apply map_ext. intros c. apply multiplication_ord_compose.
Qed.

(** ** Keys act modulo the alphabet size *)

(** Two keys congruent modulo 95 encode every string alike, with the Shift
    cipher and with the Multiplicative cipher. *)
Theorem congruent_keys_encode_alike (k1 k2 : Z) (msg : str) :
  k1 mod alphabet_size = k2 mod alphabet_size ->
  Caesar.encode k1 msg = Caesar.encode k2 msg
  /\ Multiplication.encode k1 msg = Multiplication.encode k2 msg.
Proof.
  intros Hk. rewrite !caesar_encode_map, !multiplication_encode_map.
  split; apply f_equal; apply map_ext; intros c.
  - unfold caesar_ord. f_equal.
    replace (c + k1 - alphabet_start) with ((c - alphabet_start) + k1) by lia.
    replace (c + k2 - alphabet_start) with ((c - alphabet_start) + k2) by lia.
    rewrite (Zplus_mod _ k1), (Zplus_mod _ k2). now rewrite Hk.
  - unfold multiplication_ord. f_equal.
    rewrite (Zminus_mod (c * k1)), (Zminus_mod (c * k2)).
    rewrite (Zmult_mod c k1), (Zmult_mod c k2). now rewrite Hk.
Qed.

Lemma congruent_keys_encode_alike_witness :
  Caesar.encode 3 (of_string "abc") = Caesar.encode 98 (of_string "abc")
  /\ Multiplication.encode 3 (of_string "abc")
     = Multiplication.encode 98 (of_string "abc").
Proof.
  apply (congruent_keys_encode_alike 3 98 (of_string "abc")). reflexivity.
Defined.

(** ** A factor that is not coprime with 95 loses information *)

(** When [gcd(key, 95) <> 1] two different characters of the alphabet are
    encoded to the same character, so no decoding can tell them apart. *)
Theorem multiplication_non_coprime_collides (key : Z) :
  Z.gcd key alphabet_size <> 1 ->
  exists c1 c2,
    in_alphabet c1 /\ in_alphabet c2 /\ c1 <> c2
    /\ Multiplication.encode key [c1] = Multiplication.encode key [c2].
Proof.
  intros Hg. set (g := Z.gcd key alphabet_size) in *.
  assert (0 <= g) as Hg0 by apply Z.gcd_nonneg.
  destruct (Z.gcd_divide_l key alphabet_size) as [a Ha].
  destruct (Z.gcd_divide_r key alphabet_size) as [b Hb].
  fold g in Ha, Hb. unfold alphabet_size in Hb. clearbody g.
  assert (g <> 0) by (intros E; rewrite E in Hb; lia).
  assert (2 <= g) by lia.
  assert (1 <= b <= 47) as Hbr by nia.
  exists 32, (32 + b). unfold in_alphabet, alphabet_start, alphabet_end.
  repeat split; try lia.
  rewrite !multiplication_encode_map. cbn [map]. do 2 f_equal.
  unfold multiplication_ord, alphabet_size, alphabet_start. f_equal.
  replace ((32 + b) * key - 32) with (32 * key - 32 + a * 95).
  - now rewrite Z.mod_add by lia.
  - assert (b * key = a * 95) as E by (rewrite Ha, Hb; ring). lia.
Qed.

Lemma multiplication_non_coprime_collides_witness :
  exists c1 c2,
    in_alphabet c1 /\ in_alphabet c2 /\ c1 <> c2
    /\ Multiplication.encode 10 [c1] = Multiplication.encode 10 [c2].
Proof.
  apply (multiplication_non_coprime_collides 10). discriminate.
Defined.

(** ** The Affine cipher in closed form *)

(** The Affine [encode] sends the character [c] to the character of
    [32 .. 126] congruent to [c * m + k] modulo 95, for the key [(m, k)];
    it never raises.  With the shift 0 it is the Multiplicative [encode]. *)
Theorem affine_encode_closed_form (key : Z * Z) (msg : str) :
  Affine.encode key msg
  = Ok (map (fun c => (c * fst key + snd key - 32) mod 95 + 32) msg)
  /\ Affine.encode (fst key, 0) msg = Multiplication.encode (fst key) msg.
Proof.
  destruct key as [m k]. unfold Affine.encode. cbn [fst snd].
  rewrite multiplication_encode_map. cbn [bind].
  rewrite !caesar_encode_map, !map_map. split; apply f_equal.
  - apply map_ext. intros c.
    unfold caesar_ord, multiplication_ord, alphabet_size, alphabet_start.
    replace ((c * m - 32) mod 95 + 32 + k - 32)
      with ((c * m - 32) mod 95 + k) by lia.
    rewrite Zplus_mod_idemp_l. do 2 f_equal. lia.
  - apply map_ext. intros c.
    unfold caesar_ord, multiplication_ord, alphabet_size, alphabet_start.
    replace ((c * m - 32) mod 95 + 32 + 0 - 32)
      with ((c * m - 32) mod 95) by lia.
    now rewrite Z.mod_mod by lia.
Qed.

(** ** A one-letter keyword is a shift *)

Lemma caesar_ord_mod (k c : Z) :
  caesar_ord (k mod alphabet_size) c = caesar_ord k c.
Proof.
  unfold caesar_ord. f_equal.
  replace (c + k mod alphabet_size - alphabet_start)
    with ((c - alphabet_start) + k mod alphabet_size) by lia.
  replace (c + k - alphabet_start) with ((c - alphabet_start) + k) by lia.
  apply Zplus_mod_idemp_r.
Qed.

Lemma map_from_const (f : Z -> Z -> Z) (g : Z -> Z) (i : Z) (msg : str) :
  (forall j c, f j c = g c) -> map_from f i msg = map g msg.
Proof.
  intros H. revert i. induction msg as [|c msg IH]; intros i; simpl;
    [reflexivity|]. now rewrite H, IH.
Qed.

Lemma unbreakable_ord_single (k i c : Z) :
  unbreakable_ord [k] i c = caesar_ord k c.
Proof.
  unfold unbreakable_ord, caesar_ord, len. cbn [List.length Z.of_nat].
  change (Z.pos (Pos.of_succ_nat 0)) with 1. now rewrite Z.mod_1_r.
Qed.

(** The Keyword cipher with the one-element key [[k]] encodes and decodes
    every string as the Shift cipher does with the key [k]. *)
Theorem unbreakable_single_key_is_caesar (k : Z) (msg : str) :
  Unbreakable.encode [k] msg = Caesar.encode k msg
  /\ Unbreakable.decode [k] msg = Caesar.decode k msg.
Proof.
  split.
  - rewrite unbreakable_encode_map by discriminate.
    rewrite caesar_encode_map. apply f_equal.
    apply map_from_const. intros j c. apply unbreakable_ord_single.
  - unfold Unbreakable.decode, Caesar.decode. cbn [fold_left app].
    rewrite unbreakable_encode_map by discriminate.
    rewrite caesar_encode_map. apply f_equal.
    apply map_from_const. intros j c. rewrite unbreakable_ord_single.
    apply caesar_ord_mod.
Qed.

(** ** verify *)

Lemma str_eqb_true (a b : str) : str_eqb a b = true <-> a = b.
Proof.
  unfold str_eqb. destruct (list_eq_dec Z.eq_dec a b); split; auto.
  discriminate.
Qed.

Lemma encode_in_alphabet (c : Cipher.t) (key : Cipher.key_of c)
  (msg encoded : str) :
  Cipher.encode c key msg = Ok encoded -> Forall in_alphabet encoded.
Proof.
  destruct c; cbn [Cipher.encode Cipher.key_of] in *.
  - rewrite caesar_encode_map. intros [= <-].
    apply Forall_map, Forall_forall. intros ch _. apply mod_alphabet_range.
  - rewrite multiplication_encode_map. intros [= <-].
    apply Forall_map, Forall_forall. intros ch _. apply mod_alphabet_range.
  - unfold Affine.encode. rewrite multiplication_encode_map. cbn [bind].
    rewrite caesar_encode_map. intros [= <-].
    apply Forall_map, Forall_forall. intros ch _. apply mod_alphabet_range.
  - destruct key as [|k key].
    + destruct msg; [|discriminate]. intros [= <-]. constructor.
    + rewrite unbreakable_encode_map by discriminate. intros [= <-].
      apply map_from_Forall. intros j ch. apply mod_alphabet_range.
Qed.

Lemma decode_in_alphabet (c : Cipher.t) (key : Cipher.key_of c)
  (msg decoded : str) :
  Cipher.decode c key msg = Ok decoded -> Forall in_alphabet decoded.
Proof.
  destruct c; cbn [Cipher.decode Cipher.key_of] in *.
  - apply (encode_in_alphabet Cipher.Caesar).
  - unfold Multiplication.decode.
    destruct (modular_inverse key alphabet_size) as [inv|e];
      [|discriminate]. apply (encode_in_alphabet Cipher.Multiplication).
  - unfold Affine.decode.
    destruct (Caesar.decode (snd key) msg) as [m|e]; [|discriminate].
    cbn [bind]. unfold Multiplication.decode.
    destruct (modular_inverse (fst key) alphabet_size) as [inv|e];
      [|discriminate]. apply (encode_in_alphabet Cipher.Multiplication).
  - apply (encode_in_alphabet Cipher.Unbreakable).
Qed.

Lemma roundtrip_decodable (c : Cipher.t) (key : Cipher.key_of c) (msg : str) :
  decodable_key c key ->
  Forall in_alphabet msg ->
  exists encoded,
    Cipher.encode c key msg = Ok encoded
    /\ Cipher.decode c key encoded = Ok msg.
Proof.
  destruct c;
    cbn [Cipher.key_of Cipher.encode Cipher.decode decodable_key] in *;
    intros Hk Hm.
  - exists (map (caesar_ord key) msg). split; [apply caesar_encode_map|].
    now apply caesar_roundtrip.
  - destruct Hk as [Hk0 Hg].
    exists (map (multiplication_ord key) msg).
    split; [apply multiplication_encode_map|].
    now apply multiplication_roundtrip.
  - destruct key as [m k]. cbn [fst snd] in Hk. destruct Hk as [Hm0 Hg].
    exists (map (caesar_ord k) (map (multiplication_ord m) msg)). split.
    + unfold Affine.encode. cbn [fst snd].
      rewrite multiplication_encode_map. cbn [bind]. apply caesar_encode_map.
    + unfold Affine.decode. cbn [fst snd].
      rewrite caesar_roundtrip.
      * cbn [bind]. now apply multiplication_roundtrip.
      * apply Forall_map, Forall_forall. intros ch _.
        apply mod_alphabet_range.
  - exists (map_from (unbreakable_ord key) 0 msg).
    split; [now apply unbreakable_encode_map|].
    now apply unbreakable_roundtrip.
Qed.

Lemma decodable_no_error (c : Cipher.t) (key : Cipher.key_of c) (msg : str) :
  decodable_key c key ->
  factor_nonneg c key
  /\ raised_by_encode c key msg = None
  /\ raised_by_decode c key msg = None.
Proof.
  destruct c; cbn [Cipher.key_of decodable_key factor_nonneg raised_by_encode
                   raised_by_decode] in *; intros Hk.
  - auto.
  - destruct Hk as [H0 ->]. auto.
  - destruct Hk as [H0 ->]. auto.
  - destruct key; [congruence|auto].
Qed.

(** For a key that can decode (any shift, a non-negative factor coprime with
    95, a non-empty keyword), [verify] returns [True] exactly on the
    messages made of characters of [32 .. 126], and [False] on all others:
    a character outside the alphabet never survives the round trip. *)
Theorem verify_true_iff_in_alphabet (c : Cipher.t) (key : Cipher.key_of c)
  (msg : str) :
  decodable_key c key ->
  exists b,
    Cipher.verify c key msg = Ok b
    /\ (b = true <-> Forall in_alphabet msg).
Proof.
  intros Hk. unfold Cipher.verify.
  destruct (decodable_no_error c key msg Hk) as (Hf & He & _).
  pose proof (encode_error_of c key msg) as Henc. rewrite He in Henc.
  destruct (Cipher.encode c key msg) as [encoded|e] eqn:Eenc;
    [|discriminate]. cbn [bind].
  destruct (decodable_no_error c key encoded Hk) as (_ & _ & Hd).
  pose proof (decode_error_of c key encoded Hf) as Hdec. rewrite Hd in Hdec.
  destruct (Cipher.decode c key encoded) as [decoded|e] eqn:Edec;
    [|discriminate]. cbn [bind].
  exists (str_eqb msg decoded). split; [reflexivity|].
  rewrite str_eqb_true. split.
  - intros ->. now apply (decode_in_alphabet c key encoded).
  - intros Hm.
    destruct (roundtrip_decodable c key msg Hk Hm) as (e' & He' & Hd').
    rewrite Eenc in He'. injection He' as <-.
    rewrite Edec in Hd'. now injection Hd' as <-.
Qed.

Lemma verify_true_iff_in_alphabet_witness :
  exists b,
    Cipher.verify Cipher.Caesar 95 [97; 200] = Ok b
    /\ (b = true <-> Forall in_alphabet [97; 200]).
Proof.
  apply (verify_true_iff_in_alphabet Cipher.Caesar 95 [97; 200]).
  exact I.
Defined.

(** ** Generated keys *)

(** The Keyword [generate_key] turns the keyword into one key element per
    character.  With a non-empty keyword the key encodes every message of
    the alphabet and decodes it back; with the empty keyword the key is
    empty, and encoding any non-empty message raises [ZeroDivisionError]. *)
Theorem unbreakable_generate_key_use (keyword msg : str) :
  Forall in_alphabet msg ->
  List.length (Unbreakable.generate_key keyword) = List.length keyword
  /\ match keyword, msg with
     | [], _ :: _ =>
         Unbreakable.encode (Unbreakable.generate_key keyword) msg
         = Raise ZeroDivisionError
     | _, _ =>
         exists encoded,
           Unbreakable.encode (Unbreakable.generate_key keyword) msg
           = Ok encoded
           /\ Unbreakable.decode (Unbreakable.generate_key keyword) encoded
              = Ok msg
     end.
Proof.
  intros Hm. unfold Unbreakable.generate_key. rewrite fold_left_snoc.
  cbn [app]. unfold ord. rewrite map_id. split; [reflexivity|].
  destruct keyword as [|k keyword].
  - destruct msg as [|ch msg]; [|reflexivity].
    exists []. split; reflexivity.
  - exists (map_from (unbreakable_ord (k :: keyword)) 0 msg).
    split; [now apply unbreakable_encode_map|].
    now apply unbreakable_roundtrip.
Qed.

Lemma unbreakable_generate_key_use_witness :
  List.length (Unbreakable.generate_key (of_string "key"))
  = List.length (of_string "key")
  /\ exists encoded,
       Unbreakable.encode (Unbreakable.generate_key (of_string "key"))
         (of_string "attack at dawn") = Ok encoded
       /\ Unbreakable.decode (Unbreakable.generate_key (of_string "key"))
            encoded = Ok (of_string "attack at dawn").
Proof.
  apply (unbreakable_generate_key_use (of_string "key")
           (of_string "attack at dawn")).
  unfold in_alphabet, alphabet_start, alphabet_end.
  repeat (constructor; [simpl; lia|]). constructor.
Defined.

Lemma multiplication_generate_key_sound (fuel : nat) (r : Random) (key : Z)
  (r' : Random) :
  Multiplication.generate_key fuel r = Some (key, r') ->
  Z.gcd key alphabet_size = 1 /\ 0 < key < alphabet_size.
Proof.
  intros H. unfold Multiplication.generate_key in H.
  pose proof (randint_range 0 alphabet_size r
                ltac:(unfold alphabet_size; lia)) as Hr.
  destruct (randint 0 alphabet_size r) as [key0 r1]. cbn [fst] in Hr.
  destruct (generate_key_loop_sound fuel key0 r1 key r' Hr H) as [Hg Hk].
  split; [assumption|]. now apply coprime_key_range.
Qed.

(** A pair returned by the Affine [generate_key] has a factor coprime with
    95 strictly between 0 and 95 and a shift in [0 .. 95] (95 included),
    and it encodes every message of the alphabet to a text that it decodes
    back. *)
Theorem affine_generate_key_usable (fuel : nat) (r : Random) (key : Z * Z)
  (r' : Random) :
  Affine.generate_key fuel r = Some (key, r') ->
  Z.gcd (fst key) alphabet_size = 1
  /\ 0 < fst key < alphabet_size
  /\ 0 <= snd key <= alphabet_size
  /\ forall msg, Forall in_alphabet msg ->
       exists encoded,
         Affine.encode key msg = Ok encoded
         /\ Affine.decode key encoded = Ok msg.
Proof.
  unfold Affine.generate_key.
  destruct (Multiplication.generate_key fuel r) as [[m r1]|] eqn:Em;
    [|discriminate].
  pose proof (randint_range 0 alphabet_size r1
                ltac:(unfold alphabet_size; lia)) as Hc.
  unfold Caesar.generate_key.
  destruct (randint 0 alphabet_size r1) as [k r2]. cbn [fst] in Hc.
  intros [= <- <-]. cbn [fst snd].
  destruct (multiplication_generate_key_sound fuel r m r1 Em) as [Hg Hm].
  repeat split; try lia; try assumption.
  intros msg Hmsg.
  apply (roundtrip_decodable Cipher.Affine (m, k) msg); [|assumption].
  cbn. split; [lia|assumption].
Qed.

Lemma affine_generate_key_usable_witness :
  let key := (7, 95) in
  Z.gcd (fst key) alphabet_size = 1
  /\ 0 < fst key < alphabet_size
  /\ 0 <= snd key <= alphabet_size
  /\ forall msg, Forall in_alphabet msg ->
       exists encoded,
         Affine.encode key msg = Ok encoded
         /\ Affine.decode key encoded = Ok msg.
Proof.
  intros key.
  apply (affine_generate_key_usable 5
           {| tape := fun n => match n with O => 95 | S O => 7 | _ => 95 end;
              cursor := 0 |}
           key
           {| tape := fun n => match n with O => 95 | S O => 7 | _ => 95 end;
              cursor := 3 |}).
  reflexivity.
Defined.

(** ** Decoding with another key *)

(** A text shifted by [k1] and decoded with the key [k2] is the message
    shifted by [k1 - k2]; a non-empty message of the alphabet is recovered
    exactly when the two keys are congruent modulo 95. *)
Theorem caesar_decode_with_other_key (k1 k2 : Z) (msg : str) :
  Forall in_alphabet msg ->
  msg <> [] ->
  exists encoded,
    Caesar.encode k1 msg = Ok encoded
    /\ Caesar.decode k2 encoded = Caesar.encode (k1 - k2) msg
    /\ (Caesar.decode k2 encoded = Ok msg
        <-> k1 mod alphabet_size = k2 mod alphabet_size).
Proof.
  intros Hm Hne. exists (map (caesar_ord k1) msg).
  split; [apply caesar_encode_map|].
  assert (Caesar.decode k2 (map (caesar_ord k1) msg)
          = Caesar.encode (k1 - k2) msg) as Hdec.
  { unfold Caesar.decode. rewrite !caesar_encode_map, map_map. apply f_equal.
    apply map_ext. intros c. rewrite caesar_ord_compose.
    rewrite <- (caesar_ord_mod (k1 - k2)), <- (caesar_ord_mod (k1 + _)).
    f_equal. unfold alphabet_size.
    replace (k1 + (95 - k2)) with (k1 - k2 + 1 * 95) by lia.
    now rewrite Z.mod_add by lia. }
  split; [assumption|]. rewrite Hdec, caesar_encode_map. split.
  - intros [= H]. destruct msg as [|c msg]; [congruence|].
    injection H as Hc _. inversion Hm as [|? ? Hin _]; subst.
    unfold caesar_ord, in_alphabet, alphabet_size, alphabet_start,
      alphabet_end in *.
    pose proof (Z.div_mod (c + (k1 - k2) - 32) 95 ltac:(lia)) as Hq.
    pose proof (Z.div_mod k1 95 ltac:(lia)) as H1.
    pose proof (Z.div_mod k2 95 ltac:(lia)) as H2.
    pose proof (Z.mod_pos_bound k1 95 ltac:(lia)).
    pose proof (Z.mod_pos_bound k2 95 ltac:(lia)).
    lia.
  - intros Hk. apply f_equal.
    rewrite <- (map_id msg) at 2. apply map_ext_in. intros c Hc.
    rewrite Forall_forall in Hm. specialize (Hm c Hc).
    rewrite <- caesar_ord_mod.
    replace ((k1 - k2) mod alphabet_size) with 0.
    + unfold caesar_ord, in_alphabet, alphabet_size, alphabet_start,
        alphabet_end in *. rewrite Z.add_0_r, Z.mod_small by lia. lia.
    + rewrite Zminus_mod, Hk, Z.sub_diag. reflexivity.
Qed.

Lemma caesar_decode_with_other_key_witness :
  exists encoded,
    Caesar.encode 5 (of_string "hi") = Ok encoded
    /\ Caesar.decode 3 encoded = Caesar.encode (5 - 3) (of_string "hi")
    /\ (Caesar.decode 3 encoded = Ok (of_string "hi")
        <-> 5 mod alphabet_size = 3 mod alphabet_size).
Proof.
  apply (caesar_decode_with_other_key 5 3 (of_string "hi")).
  - unfold in_alphabet, alphabet_start, alphabet_end.
    repeat (constructor; [simpl; lia|]). constructor.
  - discriminate.
Defined.

(** ** Sender and Receiver *)

(** Whatever keys a Sender and a Receiver held before, once both were given
    the same key that can decode, what the Sender encodes from a message of
    the alphabet the Receiver decodes back to that message; [get_key]
    returns the key set last. *)
Theorem sender_receiver_roundtrip (c : Cipher.t) (sender receiver : Person.t c)
  (key : Cipher.key_of c) (msg : str) :
  decodable_key c key ->
  Forall in_alphabet msg ->
  Person.get_key (Person.set_key sender key) = Some key
  /\ exists encrypted,
       Sender.operate_cipher (Person.set_key sender key) msg = Ok encrypted
       /\ Receiver.operate_cipher (Person.set_key receiver key) encrypted
          = Ok msg.
Proof.
  intros Hk Hm. split; [reflexivity|].
  unfold Sender.operate_cipher, Receiver.operate_cipher. cbn.
  now apply roundtrip_decodable.
Qed.

Lemma sender_receiver_roundtrip_witness :
  Person.get_key
    (Person.set_key (c := Cipher.Unbreakable) Person.init (of_string "pw"))
  = Some (of_string "pw")
  /\ exists encrypted,
       Sender.operate_cipher
         (Person.set_key (c := Cipher.Unbreakable) Person.init
            (of_string "pw")) (of_string "hello") = Ok encrypted
       /\ Receiver.operate_cipher
            (Person.set_key (c := Cipher.Unbreakable)
               (@Person.mk Cipher.Unbreakable (Some [1])) (of_string "pw")) encrypted
          = Ok (of_string "hello").
Proof.
  apply (sender_receiver_roundtrip Cipher.Unbreakable Person.init
           (@Person.mk Cipher.Unbreakable (Some [1])) (of_string "pw") (of_string "hello")).
  - discriminate.
  - unfold in_alphabet, alphabet_start, alphabet_end.
    repeat (constructor; [simpl; lia|]). constructor.
Defined.

(** * Further properties of the hacker *)

(** ** Loops *)

Lemma for_each_app {c : Cipher.t} {A : Type}
  (body : Hacker.t c -> A -> Hacker.t c * result unit) (xs ys : list A) :
  forall h,
    Hacker.for_each body (xs ++ ys) h
    = match Hacker.for_each body xs h with
      | (h1, Ok _) => Hacker.for_each body ys h1
      | (h1, Raise e) => (h1, Raise e)
      end.
Proof.
  induction xs as [|x xs IH]; intros h; cbn [app Hacker.for_each];
    [reflexivity|].
  destruct (body h x) as [h1 [[]|e]]; [apply IH|reflexivity].
Qed.

Lemma for_each_map {c : Cipher.t} {A B : Type} (f : A -> B)
  (body : Hacker.t c -> B -> Hacker.t c * result unit) (xs : list A) :
  forall h,
    Hacker.for_each body (map f xs) h
    = Hacker.for_each (fun h x => body h (f x)) xs h.
Proof.
  induction xs as [|x xs IH]; intros h; cbn [map Hacker.for_each];
    [reflexivity|].
  destruct (body h (f x)) as [h1 [[]|e]]; [apply IH|reflexivity].
Qed.

Lemma for_each_flat_map {c : Cipher.t} {A B : Type} (f : A -> list B)
  (body : Hacker.t c -> B -> Hacker.t c * result unit) (xs : list A) :
  forall h,
    Hacker.for_each (fun h x => Hacker.for_each body (f x) h) xs h
    = Hacker.for_each body (flat_map f xs) h.
Proof.
  induction xs as [|x xs IH]; intros h; cbn [flat_map Hacker.for_each];
    [reflexivity|].
  rewrite for_each_app.
  destruct (Hacker.for_each body (f x) h) as [h1 [[]|e]];
    [apply IH|reflexivity].
Qed.

Lemma filter_all {A : Type} (f : A -> bool) (l : list A) :
  (forall x, f x = true) -> filter f l = l.
Proof.
  intros H. induction l as [|x l IH]; cbn [filter]; [reflexivity|].
  now rewrite H, IH.
Qed.

(** ** The search keeps the first of the best candidates *)

Section Search.

Context {c : Cipher.t}.

(** A loop whose body, for the element [x], either checks the key
    [keyf x] or leaves count and message alone when that key cannot
    decode. *)
Lemma for_each_first_best {A : Type} (keyf : A -> Cipher.key_of c)
  (body : Hacker.t c -> A -> Hacker.t c * result unit) (xs : list A) :
  (forall h x, In x xs ->
     snd (body h x) = Ok tt
     /\ Hacker.encoded_msg (fst (body h x)) = Hacker.encoded_msg h
     /\ Hacker.words (fst (body h x)) = Hacker.words h
     /\ match Cipher.decode c (keyf x) (Hacker.encoded_msg h) with
        | Ok d =>
            if Hacker.count_english_words h d >? Hacker.max_count h
            then Hacker.max_count (fst (body h x))
                 = Hacker.count_english_words h d
                 /\ Hacker.most_likely_msg (fst (body h x)) = d
            else Hacker.max_count (fst (body h x)) = Hacker.max_count h
                 /\ Hacker.most_likely_msg (fst (body h x))
                    = Hacker.most_likely_msg h
        | Raise _ =>
            Hacker.max_count (fst (body h x)) = Hacker.max_count h
            /\ Hacker.most_likely_msg (fst (body h x))
               = Hacker.most_likely_msg h
        end) ->
  forall h,
    snd (Hacker.for_each body xs h) = Ok tt
    /\ Hacker.encoded_msg (fst (Hacker.for_each body xs h))
       = Hacker.encoded_msg h
    /\ Hacker.words (fst (Hacker.for_each body xs h)) = Hacker.words h
    /\ retains_first_best h (map keyf xs) (fst (Hacker.for_each body xs h)).
Proof.
  induction xs as [|x xs IH]; intros Hbody h; cbn [Hacker.for_each map].
  - cbn [fst snd]. repeat split. left. repeat split. intros k d [].
  - destruct (Hbody h x (or_introl eq_refl)) as (Hr & Henc & Hws & H).
    destruct (body h x) as [h1 r]. cbn [fst snd] in *. subst r.
    specialize (IH (fun h2 y Hy => Hbody h2 y (or_intror Hy)) h1).
    destruct IH as (IHr & IHenc & IHws & IH).
    set (h' := fst (Hacker.for_each body xs h1)) in *.
    split; [assumption|]. split; [congruence|]. split; [congruence|].
    unfold retains_first_best in *. rewrite Henc in IH.
    assert (forall d', Hacker.count_english_words h1 d'
                       = Hacker.count_english_words h d') as Hc
        by (intros d'; now apply count_english_words_words).
    destruct (Cipher.decode c (keyf x) (Hacker.encoded_msg h)) as [d|e] eqn:Ed.
    + destruct (Z.gtb_spec (Hacker.count_english_words h d)
                  (Hacker.max_count h)) as [Hgt|Hle];
        destruct H as [Hmax Hmsg].
      * right.
        destruct IH as [(Hm' & Hs' & Hall)|
                        (pre & k' & post & d' & -> & Hd' & Hs' & Hm' & Hlt
                         & Hpre & Hpost)].
        -- exists [], (keyf x), (map keyf xs), d. cbn [app].
           repeat split; try assumption; try congruence.
           ++ intros k' d' [].
           ++ intros k' d' Hin Hd'. specialize (Hall k' d' Hin Hd').
              rewrite Hc in Hall. lia.
        -- exists (keyf x :: pre), k', post, d'. rewrite Hc in *.
           repeat split; try assumption; try lia.
           ++ intros k'' d'' [<-|Hin] Hd''.
              ** rewrite Ed in Hd''. injection Hd'' as <-. lia.
              ** specialize (Hpre k'' d'' Hin Hd''). now rewrite !Hc in Hpre.
           ++ intros k'' d'' Hin Hd''.
              specialize (Hpost k'' d'' Hin Hd''). now rewrite !Hc in Hpost.
      * destruct IH as [(Hm' & Hs' & Hall)|
                        (pre & k' & post & d' & -> & Hd' & Hs' & Hm' & Hlt
                         & Hpre & Hpost)].
        -- left. repeat split; try congruence.
           intros k' d' [<-|Hin] Hd'.
           ++ rewrite Ed in Hd'. injection Hd' as <-. lia.
           ++ specialize (Hall k' d' Hin Hd'). rewrite Hc in Hall. lia.
        -- right. exists (keyf x :: pre), k', post, d'. rewrite Hc in *.
           repeat split; try assumption; try lia.
           ++ intros k'' d'' [<-|Hin] Hd''.
              ** rewrite Ed in Hd''. injection Hd'' as <-. lia.
              ** specialize (Hpre k'' d'' Hin Hd''). now rewrite !Hc in Hpre.
           ++ intros k'' d'' Hin Hd''.
              specialize (Hpost k'' d'' Hin Hd''). now rewrite !Hc in Hpost.
    + destruct H as [Hmax Hmsg].
      destruct IH as [(Hm' & Hs' & Hall)|
                      (pre & k' & post & d' & -> & Hd' & Hs' & Hm' & Hlt
                       & Hpre & Hpost)].
      * left. repeat split; try congruence.
        intros k' d' [<-|Hin] Hd'; [congruence|].
        specialize (Hall k' d' Hin Hd'). rewrite Hc in Hall. lia.
      * right. exists (keyf x :: pre), k', post, d'. rewrite Hc in *.
        repeat split; try assumption; try lia.
        -- intros k'' d'' [<-|Hin] Hd''; [congruence|].
           specialize (Hpre k'' d'' Hin Hd''). now rewrite !Hc in Hpre.
        -- intros k'' d'' Hin Hd''.
           specialize (Hpost k'' d'' Hin Hd''). now rewrite !Hc in Hpost.
Qed.

(** [check_key] is such a body on every key that decodes. *)
Lemma check_key_step (h : Hacker.t c) (k : Cipher.key_of c) :
  error_of (Cipher.decode c k (Hacker.encoded_msg h)) = None ->
  snd (Hacker.check_key h k) = Ok tt
  /\ Hacker.encoded_msg (fst (Hacker.check_key h k)) = Hacker.encoded_msg h
  /\ Hacker.words (fst (Hacker.check_key h k)) = Hacker.words h
  /\ match Cipher.decode c k (Hacker.encoded_msg h) with
     | Ok d =>
         if Hacker.count_english_words h d >? Hacker.max_count h
         then Hacker.max_count (fst (Hacker.check_key h k))
              = Hacker.count_english_words h d
              /\ Hacker.most_likely_msg (fst (Hacker.check_key h k)) = d
         else Hacker.max_count (fst (Hacker.check_key h k))
              = Hacker.max_count h
              /\ Hacker.most_likely_msg (fst (Hacker.check_key h k))
                 = Hacker.most_likely_msg h
     | Raise _ =>
         Hacker.max_count (fst (Hacker.check_key h k)) = Hacker.max_count h
         /\ Hacker.most_likely_msg (fst (Hacker.check_key h k))
            = Hacker.most_likely_msg h
     end.
Proof.
  intros Hd. destruct (check_key_cases h k) as (Henc & Hws & H).
  destruct (Cipher.decode c k (Hacker.encoded_msg h)) as [d|e];
    [|discriminate].
  destruct H as [Hr H]. repeat split; assumption.
Qed.

Lemma check_keys_search (ks : list (Cipher.key_of c)) (h : Hacker.t c) :
  (forall k msg, In k ks -> error_of (Cipher.decode c k msg) = None) ->
  snd (Hacker.for_each Hacker.check_key ks h) = Ok tt
  /\ Hacker.encoded_msg (fst (Hacker.for_each Hacker.check_key ks h))
     = Hacker.encoded_msg h
  /\ Hacker.words (fst (Hacker.for_each Hacker.check_key ks h))
     = Hacker.words h
  /\ retains_first_best h ks (fst (Hacker.for_each Hacker.check_key ks h)).
Proof.
  intros Hks.
  pose proof (for_each_first_best (fun k => k) Hacker.check_key ks) as H.
  rewrite map_id in H. apply H.
  intros h1 k Hin. apply check_key_step. now apply Hks.
Qed.

End Search.

(** ** brute_force *)

Lemma finish_search {c : Cipher.t} (h0 : Hacker.t c)
  (ks : list (Cipher.key_of c)) (out : Hacker.t c * result unit) :
  snd out = Ok tt
  /\ Hacker.encoded_msg (fst out) = Hacker.encoded_msg h0
  /\ Hacker.words (fst out) = Hacker.words h0
  /\ retains_first_best h0 ks (fst out) ->
  snd (Hacker.finish out)
  = Ok (Hacker.most_likely_msg (fst (Hacker.finish out)),
        Hacker.max_count (fst (Hacker.finish out)))
  /\ Hacker.encoded_msg (fst (Hacker.finish out)) = Hacker.encoded_msg h0
  /\ Hacker.words (fst (Hacker.finish out)) = Hacker.words h0
  /\ retains_first_best h0 ks (fst (Hacker.finish out)).
Proof.
  destruct out as [h r]. cbn [fst snd]. intros (-> & Henc & Hws & H).
  cbn. repeat split; assumption.
Qed.

Lemma coprime_keys_decode (key : Z) (msg : str) :
  In key coprime_keys ->
  error_of (Multiplication.decode key msg) = None.
Proof.
  unfold coprime_keys. rewrite filter_In. intros [Hin Hg].
  apply in_range in Hin. rewrite multiplication_decode_error by lia.
  now rewrite Hg.
Qed.

Lemma affine_loops (h : Hacker.t Cipher.Affine) :
  Hacker.brute_force_affine h
  = Hacker.for_each Hacker.check_key
      (candidate_keys Cipher.Affine (Hacker.words h)) h.
Proof.
  unfold Hacker.brute_force_affine. cbn [candidate_keys].
  rewrite <- for_each_flat_map. apply for_each_ext.
  intros h1 c_key _.
  rewrite (for_each_ext _
             (fun h m_key =>
                if negb (Z.gcd m_key alphabet_size =? 1) then (h, Ok tt)
                else Hacker.check_key (c := Cipher.Affine) h (m_key, c_key))).
  2:{ intros h2 m_key Hin. apply in_range in Hin.
      now rewrite coprime_test by lia. }
  rewrite (for_each_skip
             (fun m_key => negb (Z.gcd m_key alphabet_size =? 1))
             (fun h m_key =>
                Hacker.check_key (c := Cipher.Affine) h (m_key, c_key))).
  rewrite for_each_map. unfold coprime_keys.
  erewrite filter_ext; [reflexivity|]. intros key. apply negb_involutive.
Qed.

Lemma unbreakable_loop (h : Hacker.t Cipher.Unbreakable) :
  let out := Hacker.brute_force_unbreakable h in
  snd out = Ok tt
  /\ Hacker.encoded_msg (fst out) = Hacker.encoded_msg h
  /\ Hacker.words (fst out) = Hacker.words h
  /\ retains_first_best h (Hacker.words h) (fst out).
Proof.
  cbv zeta. unfold Hacker.brute_force_unbreakable.
  pose proof (for_each_first_best (c := Cipher.Unbreakable) (fun w => w)
                (fun (self : Hacker.t Cipher.Unbreakable) word =>
                   let encryption_key :=
                     fold_left (fun k char => k ++ [ord char]) word [] in
                   match Hacker.check_key (c := Cipher.Unbreakable) self
                           encryption_key with
                   | (self', Raise ZeroDivisionError) => (self', Ok tt)
                   | other => other
                   end) (Hacker.words h)) as H.
  rewrite map_id in H. apply H. clear H.
  intros h1 word _. cbv zeta.
  assert (fold_left (fun k char => k ++ [ord char]) word [] = word) as ->.
  { rewrite fold_left_snoc. cbn [app]. apply map_id. }
  destruct (check_key_cases h1 word) as (Henc & Hws & H).
  pose proof (decode_error_of Cipher.Unbreakable word
                (Hacker.encoded_msg h1) I) as He.
  destruct (Hacker.check_key h1 word) as [h2 r]. cbn [fst snd] in *.
  destruct (Cipher.decode Cipher.Unbreakable word (Hacker.encoded_msg h1))
    as [d|e].
  - destruct H as [-> H]. cbn [fst snd]. repeat split; assumption.
  - destruct H as (-> & Hmax & Hmsg).
    assert (e = ZeroDivisionError) as ->.
    { cbn [error_of raised_by_decode] in He.
      destruct word; [|discriminate].
      destruct (Hacker.encoded_msg h1); [discriminate|congruence]. }
    cbn [fst snd]. repeat split; assumption.
Qed.

Lemma brute_force_search {c : Cipher.t} (h0 : Hacker.t c) :
  let out := Hacker.brute_force h0 in
  snd out = Ok (Hacker.most_likely_msg (fst out), Hacker.max_count (fst out))
  /\ Hacker.encoded_msg (fst out) = Hacker.encoded_msg h0
  /\ Hacker.words (fst out) = Hacker.words h0
  /\ retains_first_best h0 (candidate_keys c (Hacker.words h0)) (fst out).
Proof.
  cbv zeta. destruct c; cbn [Hacker.brute_force]; apply finish_search.
  - rewrite brute_force_int_keys. cbn [negb orb]. rewrite filter_all by auto.
    rewrite map_id.
    apply (check_keys_search (c := Cipher.Caesar)).
    intros k msg _. apply (decode_error_of Cipher.Caesar k msg I).
  - rewrite brute_force_int_keys. cbn [negb orb]. rewrite map_id.
    apply (check_keys_search (c := Cipher.Multiplication)).
    intros k msg Hin. now apply coprime_keys_decode.
  - rewrite affine_loops.
    apply (check_keys_search (c := Cipher.Affine)).
    intros [m k] msg Hin. cbn [candidate_keys] in Hin.
    apply in_flat_map in Hin. destruct Hin as (c_key & _ & Hin).
    apply in_map_iff in Hin. destruct Hin as (m_key & [= <- <-] & Hin).
    unfold coprime_keys in Hin. apply filter_In in Hin.
    destruct Hin as [Hin Hg]. apply in_range in Hin.
    rewrite (decode_error_of Cipher.Affine (m_key, c_key) msg)
      by (cbn; lia).
    cbn [raised_by_decode fst]. now rewrite Hg.
  - apply unbreakable_loop.
Qed.

(** [brute_force] never raises.  It returns the retained message and count,
    leaves the ciphertext and the word set as they were, and what it
    retains is the first of the best among the candidate keys in the order
    of its loops: the shifts 0 .. 94, the factors of 0 .. 94 coprime with
    95, every such factor for each shift in turn, or the words of the
    corpus as keys. *)
Theorem brute_force_first_best (c : Cipher.t) (encoded : str)
  (ws : list str) :
  let h0 := Hacker.init (c := c) encoded ws in
  let out := Hacker.brute_force h0 in
  snd out = Ok (Hacker.most_likely_msg (fst out), Hacker.max_count (fst out))
  /\ Hacker.encoded_msg (fst out) = encoded
  /\ Hacker.words (fst out) = ws
  /\ retains_first_best h0 (candidate_keys c ws) (fst out).
Proof.
  exact (brute_force_search (Hacker.init (c := c) encoded ws)).
Qed.

(** ** Breaking a shift *)

Lemma range_In (lo : Z) (n : nat) (x : Z) :
  lo <= x < lo + Z.of_nat n -> In x (range lo n).
Proof.
  intros H. unfold range. apply in_map_iff.
  exists (Z.to_nat (x - lo)). split; [lia|]. apply in_seq. lia.
Qed.

Lemma caesar_decode_mod_key (key : Z) (plaintext : str) :
  Forall in_alphabet plaintext ->
  Caesar.decode (key mod alphabet_size) (map (caesar_ord key) plaintext)
  = Ok plaintext.
Proof.
  intros Hm. unfold Caesar.decode. rewrite caesar_encode_map. apply f_equal.
  apply map_undo; [assumption|]. intros ch Hch.
  apply caesar_ord_undo; [assumption|]. unfold alphabet_size.
  replace (key + (95 - key mod 95)) with (key - key mod 95 + 1 * 95) by lia.
  rewrite Z.mod_add by lia. rewrite Zminus_mod_idemp_r, Z.sub_diag.
  reflexivity.
Qed.

(** The hacker against a shifted message of the alphabet, for any integer
    key and any corpus: [brute_force] returns a message together with its
    own score, and this score is at least the score of the plaintext.  When
    the plaintext scores above zero and strictly above the decoding under
    every other shift of 0 .. 94, [brute_force] returns the plaintext
    itself. *)
Theorem hacker_recovers_caesar_plaintext (key : Z) (plaintext : str)
  (ws : list str) :
  Forall in_alphabet plaintext ->
  exists encoded,
    Caesar.encode key plaintext = Ok encoded
    /\ let h0 := Hacker.init (c := Cipher.Caesar) encoded ws in
       let score := Hacker.count_english_words h0 in
       (exists msg,
           snd (Hacker.brute_force h0) = Ok (msg, score msg)
           /\ score plaintext <= score msg)
       /\ (0 < score plaintext ->
           (forall j d,
               0 <= j < alphabet_size -> j <> key mod alphabet_size ->
               Caesar.decode j encoded = Ok d -> score d < score plaintext) ->
           snd (Hacker.brute_force h0) = Ok (plaintext, score plaintext)).
Proof.
  intros Hm. exists (map (caesar_ord key) plaintext).
  split; [apply caesar_encode_map|]. cbv zeta.
  set (encoded := map (caesar_ord key) plaintext).
  set (h0 := Hacker.init (c := Cipher.Caesar) encoded ws).
  destruct (brute_force_search h0) as (Hret & _ & _ & Hbest).
  set (h' := fst (Hacker.brute_force h0)) in *.
  rewrite Hret. clear Hret.
  pose proof (caesar_decode_mod_key key plaintext Hm) as Hdec.
  fold encoded in Hdec.
  assert (0 <= key mod alphabet_size < alphabet_size) as Hk0
      by (apply Z.mod_pos_bound; reflexivity).
  assert (In (key mod alphabet_size)
            (candidate_keys Cipher.Caesar (Hacker.words h0))) as Hin.
  { cbn [candidate_keys]. apply range_In. unfold alphabet_size in *. lia. }
  unfold retains_first_best in Hbest.
  change (Hacker.encoded_msg h0) with encoded in Hbest.
  change (Cipher.decode Cipher.Caesar) with Caesar.decode in Hbest.
  change (Hacker.max_count h0) with 0 in Hbest.
  change (Hacker.most_likely_msg h0) with (@nil Z) in Hbest.
  destruct Hbest as [(Hmax & Hmsg & Hall)|
                     (pre & k & post & d & Hks & Hd & Hmsg & Hmax & Hlt
                      & Hpre & Hpost)].
  - specialize (Hall _ _ Hin Hdec). rewrite Hmax, Hmsg.
    change (Hacker.count_english_words h0 []) with 0.
    split; [|lia]. exists []. split; [reflexivity|]. exact Hall.
  - rewrite Hmax, Hmsg.
    assert (Hacker.count_english_words h0 plaintext
            <= Hacker.count_english_words h0 d) as Hle.
    { rewrite Hks in Hin. apply in_app_or in Hin.
      destruct Hin as [Hin|[Heq|Hin]].
      - specialize (Hpre _ _ Hin Hdec). lia.
      - rewrite Heq, Hdec in Hd. injection Hd as <-. lia.
      - exact (Hpost _ _ Hin Hdec). }
    split; [exists d; split; [reflexivity|exact Hle]|].
    intros Hpos Hothers.
    destruct (Z.eq_dec k (key mod alphabet_size)) as [->|Hne].
    + rewrite Hdec in Hd. now injection Hd as <-.
    + assert (In k (candidate_keys Cipher.Caesar (Hacker.words h0))) as Hk
          by (rewrite Hks; apply in_or_app; right; now left).
      cbn [candidate_keys] in Hk. apply in_range in Hk.
      assert (0 <= k < alphabet_size) as Hk'
          by (unfold alphabet_size in *; lia).
      specialize (Hothers k d Hk' Hne Hd). lia.
Qed.

Lemma hacker_recovers_caesar_plaintext_witness :
  exists encoded,
    Caesar.encode 3 (of_string "Hello") = Ok encoded
    /\ snd (Hacker.brute_force
              (Hacker.init (c := Cipher.Caesar) encoded [of_string "hello"]))
       = Ok (of_string "Hello", 1).
Proof.
  assert (Forall in_alphabet (of_string "Hello")) as Hm.
  { unfold in_alphabet, alphabet_start, alphabet_end.
    repeat (constructor; [simpl; lia|]). constructor. }
  destruct (hacker_recovers_caesar_plaintext 3 (of_string "Hello")
              [of_string "hello"] Hm) as (encoded & Henc & _ & Hrec).
  exists encoded. split; [exact Henc|].
  vm_compute in Henc. injection Henc as <-.
  apply Hrec.
  - reflexivity.
  - intros j d Hj Hne Hd.
    assert (In j (range 0 (Z.to_nat alphabet_size))) as Hin
        by (apply range_In; unfold alphabet_size in *; lia).
    vm_compute in Hin.
    repeat (destruct Hin as [<-|Hin];
            [try (exfalso; apply Hne; reflexivity);
             try (vm_compute in Hd; injection Hd as <-; reflexivity)|]).
    destruct Hin.
Defined.

(** ** The key left behind *)

Lemma last_of_cons {A : Type} (x : A) (l : list A) :
  last_of (x :: l)
  = match last_of l with
    | Some y => Some y
    | None => Some x
    end.
Proof.
  unfold last_of. cbn [rev]. destruct (rev l); reflexivity.
Qed.

Lemma check_key_key {c : Cipher.t} (h : Hacker.t c) (k : Cipher.key_of c) :
  Hacker.key (fst (Hacker.check_key h k)) = Some k.
Proof.
  unfold Hacker.check_key, Hacker.operate_cipher.
  cbn [Hacker.set_key Hacker.key Hacker.encoded_msg].
  destruct (Cipher.decode c k (Hacker.encoded_msg h)) as [d|e];
    [|reflexivity].
  destruct (_ >? _); reflexivity.
Qed.

Lemma for_each_last_key {c : Cipher.t} {A : Type}
  (keyf : A -> Cipher.key_of c)
  (body : Hacker.t c -> A -> Hacker.t c * result unit) (xs : list A) :
  (forall h x, In x xs ->
               snd (body h x) = Ok tt
               /\ Hacker.key (fst (body h x)) = Some (keyf x)) ->
  forall h,
    Hacker.key (fst (Hacker.for_each body xs h))
    = match last_of (map keyf xs) with
      | Some k => Some k
      | None => Hacker.key h
      end.
Proof.
  induction xs as [|x xs IH]; intros Hbody h; cbn [Hacker.for_each map];
    [reflexivity|].
  destruct (Hbody h x (or_introl eq_refl)) as [Hr Hk].
  destruct (body h x) as [h1 r]. cbn [fst snd] in *. subst r.
  rewrite IH by (intros h2 y Hy; apply Hbody; now right).
  rewrite last_of_cons, Hk. destruct (last_of (map keyf xs)); reflexivity.
Qed.

Lemma check_keys_last_key {c : Cipher.t} (ks : list (Cipher.key_of c))
  (h : Hacker.t c) :
  (forall k msg, In k ks -> error_of (Cipher.decode c k msg) = None) ->
  Hacker.key (fst (Hacker.for_each Hacker.check_key ks h))
  = match last_of ks with
    | Some k => Some k
    | None => Hacker.key h
    end.
Proof.
  intros Hks.
  pose proof (for_each_last_key (fun k => k) Hacker.check_key ks) as H.
  rewrite map_id in H. apply H. intros h1 k Hin.
  split; [|apply check_key_key].
  now apply check_key_step, Hks.
Qed.

Lemma fst_finish {c : Cipher.t} (out : Hacker.t c * result unit) :
  fst (Hacker.finish out) = fst out.
Proof. destruct out as [h [[]|e]]; reflexivity. Qed.

(** After [brute_force] the attribute [key] holds the last key tried, not
    the key of the retained message: 94 for the Shift and Multiplicative
    ciphers, (94, 94) for the Affine cipher, the last word of the corpus
    for the Keyword cipher (and still [None] when the corpus is empty). *)
Theorem brute_force_leaves_last_key (c : Cipher.t) (encoded : str)
  (ws : list str) :
  Hacker.key (fst (Hacker.brute_force (Hacker.init (c := c) encoded ws)))
  = last_of (candidate_keys c ws)
  /\ last_of (candidate_keys Cipher.Caesar ws) = Some 94
  /\ last_of (candidate_keys Cipher.Multiplication ws) = Some 94
  /\ last_of (candidate_keys Cipher.Affine ws) = Some (94, 94)
  /\ last_of (candidate_keys Cipher.Unbreakable ws) = last_of ws.
Proof.
  split; [|repeat split; reflexivity].
  set (h0 := Hacker.init (c := c) encoded ws).
  assert (forall o : option (Cipher.key_of c),
             match o with Some k => Some k | None => Hacker.key h0 end = o)
    as Hnone by (intros [k|]; reflexivity).
  destruct c; cbn [Hacker.brute_force]; rewrite fst_finish.
  - rewrite brute_force_int_keys. cbn [negb orb]. rewrite filter_all by auto.
    rewrite map_id, (check_keys_last_key (c := Cipher.Caesar)); [apply Hnone|].
    intros k msg _. apply (decode_error_of Cipher.Caesar k msg I).
  - rewrite brute_force_int_keys. cbn [negb orb].
    rewrite map_id, (check_keys_last_key (c := Cipher.Multiplication));
      [apply Hnone|].
    intros k msg Hin. now apply coprime_keys_decode.
  - rewrite affine_loops.
    rewrite (check_keys_last_key (c := Cipher.Affine)); [apply Hnone|].
    intros [m k] msg Hin. cbn [candidate_keys] in Hin.
    apply in_flat_map in Hin. destruct Hin as (c_key & _ & Hin).
    apply in_map_iff in Hin. destruct Hin as (m_key & [= <- <-] & Hin).
    unfold coprime_keys in Hin. apply filter_In in Hin.
    destruct Hin as [Hin Hg]. apply in_range in Hin.
    rewrite (decode_error_of Cipher.Affine (m_key, c_key) msg)
      by (cbn; lia).
    cbn [raised_by_decode fst]. now rewrite Hg.
  - unfold Hacker.brute_force_unbreakable.
    pose proof (for_each_last_key (c := Cipher.Unbreakable) (fun w => w)
                  (fun (self : Hacker.t Cipher.Unbreakable) word =>
                     let encryption_key :=
                       fold_left (fun k char => k ++ [ord char]) word [] in
                     match Hacker.check_key (c := Cipher.Unbreakable) self
                             encryption_key with
                     | (self', Raise ZeroDivisionError) => (self', Ok tt)
                     | other => other
                     end) (Hacker.words h0)) as H.
    rewrite map_id in H. rewrite H; [apply Hnone|]. clear H.
    intros h1 word _. cbv zeta.
    assert (fold_left (fun k char => k ++ [ord char]) word [] = word) as ->.
    { rewrite fold_left_snoc. cbn [app]. apply map_id. }
    pose proof (check_key_key h1 word) as Hk.
    destruct (check_key_cases h1 word) as (_ & _ & H).
    pose proof (decode_error_of Cipher.Unbreakable word
                  (Hacker.encoded_msg h1) I) as He.
    destruct (Hacker.check_key h1 word) as [h2 r]. cbn [fst snd] in *.
    destruct (Cipher.decode Cipher.Unbreakable word (Hacker.encoded_msg h1))
      as [d|e].
    + destruct H as [-> _]. now split.
    + destruct H as (-> & _).
      assert (e = ZeroDivisionError) as ->.
      { cbn [error_of raised_by_decode] in He.
        destruct word; [|discriminate].
        destruct (Hacker.encoded_msg h1); [discriminate|congruence]. }
      now split.
Qed.

(** ** Counting words *)

Lemma count_loop_bounds (ws tokens : list str) :
  forall count,
    count <= Hacker.count_loop ws tokens count <= count + len tokens.
Proof.
  unfold Hacker.count_loop, len.
  induction tokens as [|w tokens IH]; intros count; cbn [fold_left List.length].
  - lia.
  - destruct (existsb (str_eqb (lower w)) ws).
    + specialize (IH (count + 1)). lia.
    + specialize (IH count). lia.
Qed.

Lemma re_sub_length (s : str) :
  forall in_run,
    (List.length (re_sub_non_alnum s in_run) <= List.length s)%nat.
Proof.
  induction s as [|c s IH]; intros in_run; cbn [re_sub_non_alnum List.length];
    [lia|].
  destruct (is_alnum c); [specialize (IH false); cbn [List.length]; lia|].
  destruct in_run; [specialize (IH true); lia|].
  specialize (IH true). cbn [List.length]. lia.
Qed.

Lemma split_loop_length (s : str) :
  forall word,
    (List.length (split_loop s word)
     <= List.length s + match word with [] => 0 | _ => 1 end)%nat.
Proof.
  induction s as [|c s IH]; intros word; cbn [split_loop List.length].
  - destruct word; cbn [List.length]; lia.
  - destruct (is_space c).
    + pose proof (IH []) as H0. cbn beta iota in H0.
      destruct word; cbn [List.length]; lia.
    + specialize (IH (word ++ [c])).
      destruct (word ++ [c]) eqn:E; [now destruct word|].
      destruct word; lia.
Qed.

(** The count of English words in a message lies between 0 and the number
    of characters of the message, whatever the corpus. *)
Theorem count_english_words_bounds (c : Cipher.t) (h : Hacker.t c)
  (decoded_msg : str) :
  0 <= Hacker.count_english_words h decoded_msg <= len decoded_msg.
Proof.
  unfold Hacker.count_english_words.
  pose proof (count_loop_bounds (Hacker.words h)
                (split (re_sub_non_alnum decoded_msg false)) 0) as Hb.
  pose proof (split_loop_length (re_sub_non_alnum decoded_msg false) []) as Hs.
  pose proof (re_sub_length decoded_msg false) as Hr.
  unfold split, len in *. lia.
Qed.

Lemma re_sub_no_alnum (s : str) :
  Forall (fun ch => is_alnum ch = false) s ->
  re_sub_non_alnum s true = []
  /\ (re_sub_non_alnum s false = [] \/ re_sub_non_alnum s false = [32]).
Proof.
  induction 1 as [|ch s Hch _ [IH1 IH2]]; cbn [re_sub_non_alnum].
  - auto.
  - rewrite Hch, IH1. auto.
Qed.

(** A message without any letter or digit counts no word, even when the
    empty string is a word of the corpus. *)
Theorem count_english_words_no_alnum (c : Cipher.t) (h : Hacker.t c)
  (decoded_msg : str) :
  Forall (fun ch => is_alnum ch = false) decoded_msg ->
  Hacker.count_english_words h decoded_msg = 0.
Proof.
  intros H. unfold Hacker.count_english_words.
  destruct (re_sub_no_alnum decoded_msg H) as [_ [-> | ->]]; reflexivity.
Qed.

Lemma count_english_words_no_alnum_witness :
  Hacker.count_english_words
    (Hacker.init (c := Cipher.Caesar) [] [[]; of_string "a"])
    (of_string "?! ...") = 0.
Proof.
  apply (count_english_words_no_alnum Cipher.Caesar).
  repeat (constructor; [reflexivity|]). constructor.
Defined.

Lemma lower_char_alnum (ch : Z) :
  is_alnum (if (65 <=? ch) && (ch <=? 90) then ch + 32 else ch) = is_alnum ch.
Proof.
  destruct ((65 <=? ch) && (ch <=? 90)) eqn:E; [|reflexivity].
  apply andb_prop in E. destruct E as [E1 E2].
  unfold is_alnum. rewrite E1, E2.
  apply Z.leb_le in E1, E2.
  assert ((97 <=? ch + 32) = true) as -> by (apply Z.leb_le; lia).
  assert ((ch + 32 <=? 122) = true) as -> by (apply Z.leb_le; lia).
  cbn [andb]. now rewrite !orb_true_r.
Qed.

Lemma is_space_letter (x : Z) : 65 <= x <= 122 -> is_space x = false.
Proof.
  intros H. unfold is_space.
  assert ((x <=? 13) = false) as -> by (apply Z.leb_gt; lia).
  assert ((x <=? 32) = false) as -> by (apply Z.leb_gt; lia).
  assert ((x =? 133) = false) as -> by (apply Z.eqb_neq; lia).
  assert ((x =? 160) = false) as -> by (apply Z.eqb_neq; lia).
  assert ((x =? 5760) = false) as -> by (apply Z.eqb_neq; lia).
  assert ((8192 <=? x) = false) as -> by (apply Z.leb_gt; lia).
  assert ((x =? 8232) = false) as -> by (apply Z.eqb_neq; lia).
  assert ((x =? 8233) = false) as -> by (apply Z.eqb_neq; lia).
  assert ((x =? 8239) = false) as -> by (apply Z.eqb_neq; lia).
  assert ((x =? 8287) = false) as -> by (apply Z.eqb_neq; lia).
  assert ((x =? 12288) = false) as -> by (apply Z.eqb_neq; lia).
  now rewrite !andb_false_r.
Qed.

Lemma lower_char_space (ch : Z) :
  is_space (if (65 <=? ch) && (ch <=? 90) then ch + 32 else ch) = is_space ch.
Proof.
  destruct ((65 <=? ch) && (ch <=? 90)) eqn:E; [|reflexivity].
  apply andb_prop in E. destruct E as [E1 E2].
  apply Z.leb_le in E1, E2.
  rewrite !is_space_letter by lia. reflexivity.
Qed.

Lemma lower_idempotent (word : str) : lower (lower word) = lower word.
Proof.
  unfold lower. rewrite map_map. apply map_ext. intros ch.
  destruct ((65 <=? ch) && (ch <=? 90)) eqn:E; [|now rewrite E].
  apply andb_prop in E. destruct E as [E1 E2].
  apply Z.leb_le in E1, E2.
  destruct (Z.leb_spec 65 (ch + 32)), (Z.leb_spec (ch + 32) 90); cbn [andb];
    try reflexivity; lia.
Qed.

Lemma re_sub_lower (s : str) :
  forall in_run,
    re_sub_non_alnum (lower s) in_run = lower (re_sub_non_alnum s in_run).
Proof.
  induction s as [|ch s IH]; intros in_run; [reflexivity|].
  cbn [lower map re_sub_non_alnum]. rewrite lower_char_alnum.
  fold (lower s). destruct (is_alnum ch).
  - cbn [lower map]. now rewrite IH.
  - destruct in_run; [apply IH|]. cbn [lower map]. now rewrite IH.
Qed.

Lemma split_loop_lower (s : str) :
  forall word,
    split_loop (lower s) (lower word) = map lower (split_loop s word).
Proof.
  induction s as [|ch s IH]; intros word.
  - cbn [lower map split_loop]. destruct word; reflexivity.
  - cbn [lower map split_loop]. rewrite lower_char_space.
    fold (lower s). fold (lower word). destruct (is_space ch).
    + destruct word as [|w word]; [apply (IH [])|].
      cbn [lower map]. fold (lower word). f_equal. apply (IH []).
    + rewrite <- IH. f_equal. unfold lower. now rewrite map_app.
Qed.

Lemma count_loop_lower (ws tokens : list str) :
  forall count,
    Hacker.count_loop ws (map lower tokens) count
    = Hacker.count_loop ws tokens count.
Proof.
  unfold Hacker.count_loop.
  induction tokens as [|w tokens IH]; intros count; cbn [map fold_left];
    [reflexivity|].
  rewrite lower_idempotent. apply IH.
Qed.

(** The count does not depend on the case of the ASCII letters of the
    message: turning its capitals into small letters leaves it unchanged. *)
Theorem count_english_words_ignores_case (c : Cipher.t) (h : Hacker.t c)
  (decoded_msg : str) :
  Hacker.count_english_words h (lower decoded_msg)
  = Hacker.count_english_words h decoded_msg.
Proof.
  unfold Hacker.count_english_words, split.
  rewrite re_sub_lower. change (@nil Z) with (lower []) at 1.
  rewrite split_loop_lower. apply count_loop_lower.
Qed.

(** * Keys of any shape *)

(** On a key of the shape the class expects the methods of [Untyped] are
    those of the class. *)
Lemma untyped_agrees (inv : pykey -> result Z) (c : Cipher.t)
  (key : Cipher.key_of c) (msg : str) :
  Untyped.encode c (Untyped.of_key c key) msg = Cipher.encode c key msg
  /\ Untyped.decode inv c (Untyped.of_key c key) msg
     = Cipher.decode c key msg.
Proof.
  destruct c; split; reflexivity.
Qed.

Lemma loop_type_error_error (msg : str) :
  error_of (Untyped.loop_type_error msg)
  = match msg with [] => None | _ :: _ => Some TypeError end.
Proof. destruct msg; reflexivity. Qed.

Lemma untyped_affine_encode_error (ks : list Z) (msg : str) :
  error_of (Untyped.affine_encode (KTuple ks) msg)
  = match ks with
    | [] | [_] => Some IndexError
    | _ :: _ :: _ => None
    end
  /\ Untyped.affine_encode (KList ks) msg
     = Untyped.affine_encode (KTuple ks) msg.
Proof.
  split; [|reflexivity].
  destruct ks as [|m [|k rest]]; try reflexivity.
  unfold Untyped.affine_encode. cbn [Untyped.subscript].
  change (getitem (m :: k :: rest) 1) with (@Ok Z k).
  change (getitem (m :: k :: rest) 0) with (@Ok Z m). cbn [bind].
  rewrite multiplication_encode_map. cbn [bind].
  now rewrite caesar_encode_map.
Qed.

Lemma untyped_affine_decode_error (ks : list Z) (msg : str) :
  match ks with m :: _ => 0 <= m | [] => True end ->
  error_of (Untyped.affine_decode (KTuple ks) msg)
  = match ks with
    | [] | [_] => Some IndexError
    | m :: _ :: _ =>
        if Z.gcd m alphabet_size =? 1 then None else Some NoInverseError
    end
  /\ Untyped.affine_decode (KList ks) msg
     = Untyped.affine_decode (KTuple ks) msg.
Proof.
  intros Hm. split; [|reflexivity].
  destruct ks as [|m [|k rest]]; try reflexivity.
  unfold Untyped.affine_decode. cbn [Untyped.subscript].
  change (getitem (m :: k :: rest) 1) with (@Ok Z k).
  change (getitem (m :: k :: rest) 0) with (@Ok Z m). cbn [bind].
  unfold Caesar.decode. rewrite caesar_encode_map. cbn [bind].
  now apply multiplication_decode_error.
Qed.

(** C5, amended: the ciphers validate neither the key nor the characters;
    [encode] and [decode] raise only where an operation on the key itself
    fails.  For a key that is [None], an integer, a tuple or a list of
    integers, and every message:
    - a key that is not an integer makes the Shift [decode] raise
      [TypeError], and the Shift and Multiplicative [encode] raise
      [TypeError] on a non-empty message (the empty message is returned);
    - [None] or an integer makes the Affine [encode] and [decode] raise
      [TypeError], a sequence of fewer than two elements makes them raise
      [IndexError]; a longer sequence is accepted, its first two elements
      being the key;
    - [None] or an integer makes the Keyword [decode] raise [TypeError],
      and the Keyword [encode] raise [TypeError] on a non-empty message; a
      tuple is accepted as a list is; an empty sequence makes both raise
      [ZeroDivisionError] on a non-empty message;
    - a (non-negative) factor that is not coprime with 95 makes the
      Multiplicative and Affine [decode] raise [NoInverseError]; [encode]
      accepts it;
    - every other call returns a string; in particular no character of the
      message, inside [32 .. 126] or not, makes a call raise.
    What the Multiplicative [decode] does with a key that is not an integer
    is what [modular_inverse] does with it. *)
Theorem ciphers_raise_only_on_key_operations
  (modular_inverse_of_other : pykey -> result Z) (c : Cipher.t)
  (key : pykey) (msg : str) :
  factor_nonneg_any c key ->
  error_of (Untyped.encode c key msg) = raised_by_encode_any c key msg
  /\ error_of (Untyped.decode modular_inverse_of_other c key msg)
     = raised_by_decode_any modular_inverse_of_other c key msg.
Proof.
  intros Hk. split.
  - destruct c; cbn [Untyped.encode raised_by_encode_any].
    + destruct key; cbn [Untyped.caesar_encode];
        try (rewrite loop_type_error_error; destruct msg; reflexivity).
      rewrite caesar_encode_map. reflexivity.
    + destruct key; cbn [Untyped.multiplication_encode];
        try (rewrite loop_type_error_error; destruct msg; reflexivity).
      rewrite multiplication_encode_map. reflexivity.
    + destruct key as [|k|ks|ks]; try reflexivity.
      * apply untyped_affine_encode_error.
      * destruct (untyped_affine_encode_error ks msg) as [H ->]. exact H.
    + destruct key as [|k|ks|ks]; cbn [Untyped.unbreakable_encode];
        try (rewrite loop_type_error_error; destruct msg; reflexivity);
        rewrite unbreakable_encode_error; destruct ks, msg; reflexivity.
  - destruct c; cbn [Untyped.decode raised_by_decode_any].
    + destruct key; cbn [Untyped.caesar_decode]; try reflexivity.
      unfold Caesar.decode. now rewrite caesar_encode_map.
    + destruct key as [|k|ks|ks]; cbn [Untyped.multiplication_decode].
      * destruct (modular_inverse_of_other KNone) as [inv|e];
          [|reflexivity].
        cbn [bind]. now rewrite multiplication_encode_map.
      * now apply multiplication_decode_error.
      * destruct (modular_inverse_of_other (KTuple ks)) as [inv|e];
          [|reflexivity].
        cbn [bind]. now rewrite multiplication_encode_map.
      * destruct (modular_inverse_of_other (KList ks)) as [inv|e];
          [|reflexivity].
        cbn [bind]. now rewrite multiplication_encode_map.
    + destruct key as [|k|ks|ks]; try reflexivity.
      * apply untyped_affine_decode_error.
        destruct ks; [exact I|exact Hk].
      * destruct (untyped_affine_decode_error ks msg) as [H ->];
          [destruct ks; [exact I|exact Hk]|exact H].
    + destruct key as [|k|ks|ks]; cbn [Untyped.unbreakable_decode];
        try reflexivity;
        unfold Unbreakable.decode; rewrite fold_left_snoc; cbn [app];
        rewrite unbreakable_encode_error; destruct ks, msg; reflexivity.
Qed.

Lemma ciphers_raise_only_on_key_operations_witness :
  error_of (Untyped.encode Cipher.Affine (KTuple [10; 7; 99]) [5; 300; 97])
  = None
  /\ error_of (Untyped.decode (fun _ => Raise TypeError) Cipher.Affine
                 (KTuple [10; 7; 99]) [5; 300; 97])
     = Some NoInverseError.
Proof.
  apply (ciphers_raise_only_on_key_operations (fun _ => Raise TypeError)
           Cipher.Affine (KTuple [10; 7; 99]) [5; 300; 97]).
  simpl. lia.
Defined.
